(** * ext/mixed/js/core.js: a shallow embedding and its verified properties

    The file embeds the helpers of [core.js] (error envelopes, [toIterable],
    [promiseTimeout], [stringReplaceAsync]), the [EventDispatcher] class and
    the [Yomichan] message router, and proves or refutes the properties
    stated about them.

    Conventions.
    - JavaScript values are the inductive [value]. A number is an integer,
      a finite number that is not an integer, NaN or an infinity; [Fin z]
      is the number nearest to [z] (an infinity beyond the largest one).
    - Arrays owned by the dispatcher live in a store ([arrays]) and are
      named by their position in it, so that the array a running
      [for ... of] walks is the very object [on] and [off] update.
    - A listener is a function identity; what its body does with the
      dispatcher is given by a table [code] of small programs.
    - Loops and re-entrant calls that need not end take a [fuel] bound. *)

From stdpp Require Import gmap strings list fin_maps pretty.

Set Default Proof Using "Type".
Set Warnings "-register-all".

(** ** JavaScript values *)

(** Numbers. [Fin z] is the number for the integer [z]: [z] itself up to
    2^53, and the nearest double beyond. [NonInt below text] is a finite
    number that is not an integer: [below] is the greatest integer under it
    and [text] is what [ToString] gives for it (2.5 is [NonInt 2 "2.5"]);
    the code of this file compares numbers with integers and prints them,
    and nothing more. *)
Inductive number :=
| Fin (z : Z)
| NaN
| PosInf
| NegInf
| NonInt (below : Z) (text : string).

Inductive value :=
| JUndefined
| JNull
| JBool (b : bool)
| JNum (n : number)
| JStr (s : string)
| JArray (elems : list value)
| JObject (iter : bool) (props : list (string * value))
| JError (props : list (string * value))
| JFunction (arity : nat) (source : string).

(** How a statement or call ends. [OutOfFuel] stands for a computation the
    bound cut short. *)
Inductive completion (A : Type) :=
| Returns (a : A)
| Throws (v : value)
| OutOfFuel.
Arguments Returns {A} a.
Arguments Throws {A} v.
Arguments OutOfFuel {A}.

Definition bind {A B} (c : completion A) (k : A → completion B) : completion B :=
  match c with
  | Returns a => k a
  | Throws v => Throws v
  | OutOfFuel => OutOfFuel
  end.

Notation "x ← c ; k" := (bind c (λ x, k))
  (at level 20, c at level 100, k at level 200, right associativity, only parsing).

(** [ToBoolean]. *)
Definition to_boolean (v : value) : bool :=
  match v with
  | JUndefined | JNull => false
  | JBool b => b
  | JNum (Fin z) => negb (Z.eqb z 0)
  | JNum NaN => false
  | JNum _ => true
  | JStr s => negb (String.eqb s "")
  | _ => true
  end.

(** [typeof]. *)
Definition typeof (v : value) : string :=
  match v with
  | JUndefined => "undefined"
  | JNull => "object"
  | JBool _ => "boolean"
  | JNum _ => "number"
  | JStr _ => "string"
  | JArray _ | JObject _ _ | JError _ => "object"
  | JFunction _ _ => "function"
  end.

Fixpoint assoc (key : string) (props : list (string * value)) : option value :=
  match props with
  | [] => None
  | (k, v) :: rest => if String.eqb k key then Some v else assoc key rest
  end.

(** Assignment to a property: the first binding of [key] is replaced, a
    new one is added at the end. *)
Fixpoint assign (key : string) (v : value) (props : list (string * value))
  : list (string * value) :=
  match props with
  | [] => [(key, v)]
  | (k, w) :: rest =>
      if String.eqb k key then (k, v) :: rest else (k, w) :: assign key v rest
  end.

(** The TypeError the engine raises; its message and stack differ between
    engines and are left out. *)
Definition type_error : value := JError [("name"%string, JStr "TypeError")].

(** The RangeError the engine raises, likewise. *)
Definition range_error : value := JError [("name"%string, JStr "RangeError")].

(** [Error.prototype]: what an error object answers for a property it does
    not own. *)
Definition error_prototype (key : string) : value :=
  if String.eqb key "name" then JStr "Error"
  else if String.eqb key "message" then JStr ""
  else JUndefined.

Definition string_at (s : string) (i : nat) : value :=
  match String.get i s with
  | Some c => JStr (String c EmptyString)
  | None => JUndefined
  end.

(** [v[i]] for an index. *)
Definition get_index (v : value) (i : nat) : completion value :=
  match v with
  | JUndefined | JNull => Throws type_error
  | JStr s => Returns (string_at s i)
  | JArray elems => Returns (default JUndefined (elems !! i))
  | JObject _ props => Returns (default JUndefined (assoc (pretty i) props))
  | JError props => Returns (default JUndefined (assoc (pretty i) props))
  | _ => Returns JUndefined
  end.

(** [v.key] for a name that is not an index. Reading a property of
    [undefined] or [null] raises a TypeError. *)
Definition get_member (v : value) (key : string) : completion value :=
  match v with
  | JUndefined | JNull => Throws type_error
  | JStr s =>
      Returns (if String.eqb key "length" then JNum (Fin (Z.of_nat (String.length s)))
               else JUndefined)
  | JArray elems =>
      Returns (if String.eqb key "length" then JNum (Fin (Z.of_nat (length elems)))
               else JUndefined)
  | JObject _ props => Returns (default JUndefined (assoc key props))
  | JError props => Returns (default (error_prototype key) (assoc key props))
  | JFunction arity _ =>
      Returns (if String.eqb key "length" then JNum (Fin (Z.of_nat arity))
               else JUndefined)
  | JBool _ | JNum _ => Returns JUndefined
  end.

(** Whether [v[Symbol.iterator]] is defined; reading it from [undefined]
    or [null] raises. *)
Definition get_iterator (v : value) : completion bool :=
  match v with
  | JUndefined | JNull => Throws type_error
  | JStr _ | JArray _ => Returns true
  | JObject iter _ => Returns iter
  | _ => Returns false
  end.

(** The double nearest to a positive integer: 53 significant bits, a tie
    going to the even significand. *)
Definition nearest_double (v : Z) : Z :=
  let shift := (Z.log2 v + 1 - 53)%Z in
  if (shift <=? 0)%Z then v
  else
    let ulp := (2 ^ shift)%Z in
    let q := (v / ulp)%Z in
    let r := (v mod ulp)%Z in
    let m := if (2 * r <? ulp)%Z then q
             else if (ulp <? 2 * r)%Z then (q + 1)%Z
             else if Z.even q then q else (q + 1)%Z in
    (m * ulp)%Z.

(** Whether the integer [x] is read back as the double [d], for [d] from
    2^53 on: [x] lies within half a gap of [d], the ends included when the
    significand of [d] is even. The gap under a power of two is half the
    gap over it. The comparison is made on four times the values. *)
Definition rounds_to (d x : Z) : bool :=
  let ulp := (2 ^ (Z.log2 d + 1 - 53))%Z in
  let m := (d / ulp)%Z in
  let lo := (4 * d - (if (m =? 2 ^ 52)%Z then ulp else 2 * ulp))%Z in
  let hi := (4 * d + 2 * ulp)%Z in
  if Z.even m then (lo <=? 4 * x)%Z && (4 * x <=? hi)%Z
  else (lo <? 4 * x)%Z && (4 * x <? hi)%Z.

(** The integer with the fewest significant digits that is read back as
    [d], the nearest to [d] when two have that many digits: [k] digits are
    tried, then one more, for [d] of [n] digits. *)
Fixpoint shortest (d n : Z) (k todo : nat) : Z :=
  match todo with
  | 0 => d
  | S todo' =>
      let scale := (10 ^ (n - Z.of_nat k))%Z in
      let below := (d / scale * scale)%Z in
      let above := (below + scale)%Z in
      match rounds_to d below, rounds_to d above with
      | true, true =>
          if (d - below <? above - d)%Z then below
          else if (above - d <? d - below)%Z then above
          else if Z.even (d / scale) then below else above
      | true, false => below
      | false, true => above
      | false, false => shortest d n (S k) todo'
      end
  end.

(** A string of digits without its trailing zeros. *)
Fixpoint strip_zeros (s : string) : string :=
  match s with
  | EmptyString => EmptyString
  | String c rest =>
      match strip_zeros rest with
      | EmptyString =>
          if Ascii.eqb c (Ascii.ascii_of_nat 48) then EmptyString else String c EmptyString
      | rest' => String c rest'
      end
  end.

(** Exponent notation, as in 1.5e+21. *)
Definition exponent_form (x : Z) : string :=
  let text := pretty x in
  match strip_zeros text with
  | EmptyString => text
  | String c EmptyString =>
      String c EmptyString +:+ "e+" +:+ pretty (String.length text - 1)
  | String c rest =>
      String c EmptyString +:+ "." +:+ rest +:+ "e+" +:+ pretty (String.length text - 1)
  end.

(** Whether [z] lies beyond the largest double, where the nearest number
    is an infinity. *)
Definition overflows (z : Z) : bool :=
  (1024 <=? Z.log2 (nearest_double (Z.abs z)))%Z.

(** [Number::toString] on a positive integer: all the digits under 2^53,
    then the shortest digits that read back as the same double, followed
    by zeros up to 21 digits and in exponent notation beyond. *)
Definition magnitude_to_string (a : Z) : string :=
  let d := nearest_double a in
  if overflows a then "Infinity"
  else if (d <? 2 ^ 53)%Z then pretty d
  else
    let x := shortest d (Z.of_nat (String.length (pretty d))) 1 17 in
    if (String.length (pretty x) <=? 21)%nat then pretty x else exponent_form x.

Definition number_to_string (n : number) : string :=
  match n with
  | Fin z => if (z <? 0)%Z then "-" +:+ magnitude_to_string (- z) else magnitude_to_string z
  | NaN => "NaN"
  | PosInf => "Infinity"
  | NegInf => "-Infinity"
  | NonInt _ text => text
  end.

Fixpoint join_with (sep : string) (l : list string) : string :=
  match l with
  | [] => ""
  | [s] => s
  | s :: rest => s +:+ sep +:+ join_with sep rest
  end.

(** [ToString]. *)
Fixpoint to_string (v : value) : string :=
  match v with
  | JUndefined => "undefined"
  | JNull => "null"
  | JBool true => "true"
  | JBool false => "false"
  | JNum n => number_to_string n
  | JStr s => s
  | JArray elems =>
      join_with ","
        (map (λ x, match x with JUndefined | JNull => ""%string | _ => to_string x end) elems)
  | JObject _ _ => "[object Object]"
  | JError props =>
      let fix find (key dflt : string) (ps : list (string * value)) : string :=
        match ps with
        | [] => dflt
        | (k, x) :: rest =>
            if String.eqb k key
            then match x with JUndefined => dflt | _ => to_string x end
            else find key dflt rest
        end in
      let name := find "name"%string "Error"%string props in
      let msg := find "message"%string ""%string props in
      if String.eqb name "" then msg
      else if String.eqb msg "" then name
      else name +:+ ": " +:+ msg
  | JFunction _ source => source
  end.

(** [Array.prototype.join]: [undefined] and [null] elements print as the
    empty string. *)
Definition array_join (sep : string) (elems : list value) : string :=
  join_with sep
    (map (λ x, match x with JUndefined | JNull => ""%string | _ => to_string x end) elems).

(** ** EventDispatcher *)

(** A listener is a function object, compared by identity ([===]). *)
Abbreviation listener := nat (only parsing).

(** An array object of the dispatcher: its position in the store. *)
Abbreviation loc := nat (only parsing).

(** [_eventMap] is the [Map] from event name to the array of callbacks;
    [arrays] holds the array objects themselves. An array that [off]
    unlinked from the map stays in the store: a loop that started on it
    still holds it. *)
Record dispatcher := Dispatcher {
  _eventMap : gmap string loc;
  arrays : list (list listener)
}.

(** [constructor()]. *)
Definition new_dispatcher : dispatcher :=
  {| _eventMap := ∅; arrays := [] |}.

(** The array named [a], as it is now. *)
Definition array_at (σ : dispatcher) (a : loc) : list listener :=
  default [] (arrays σ !! a).

(** The callbacks registered for [eventName], in order. *)
Definition callbacks_of (σ : dispatcher) (eventName : string) : list listener :=
  match _eventMap σ !! eventName with
  | Some a => array_at σ a
  | None => []
  end.

(** [callbacks.push(callback)] on the array named [a]. *)
Definition push (a : loc) (callback : listener) (σ : dispatcher) : dispatcher :=
  {| _eventMap := _eventMap σ;
     arrays := alter (λ cs, cs ++ [callback]) a (arrays σ) |}.

(** [callbacks.splice(i, 1)] on the array named [a]. *)
Definition splice1 (a : loc) (i : nat) (σ : dispatcher) : dispatcher :=
  {| _eventMap := _eventMap σ;
     arrays := alter (delete i) a (arrays σ) |}.

(** [on(eventName, callback)]. *)
Definition on (eventName : string) (callback : listener) (σ : dispatcher) : dispatcher :=
  match _eventMap σ !! eventName with
  | None =>
      (* callbacks = []; this._eventMap.set(eventName, callbacks); *)
      let a := length (arrays σ) in
      let σ1 := {| _eventMap := <[eventName := a]> (_eventMap σ);
                   arrays := arrays σ ++ [[]] |} in
      push a callback σ1
  | Some a => push a callback σ
  end.

(** The scan of [off]: [for (let i = 0; i < ii; ++i)], with [todo] the
    number of indices still to visit; the index of the first
    [callbacks[i] === callback]. *)
Fixpoint off_scan (callback : listener) (callbacks : list listener) (i todo : nat)
  : option nat :=
  match todo with
  | 0 => None
  | S todo' =>
      if bool_decide (callbacks !! i = Some callback) then Some i
      else off_scan callback callbacks (S i) todo'
  end.

(** [off(eventName, callback)]: the returned boolean and the new state. *)
Definition off (eventName : string) (callback : listener) (σ : dispatcher)
  : bool * dispatcher :=
  match _eventMap σ !! eventName with
  | None => (true, σ)
  | Some a =>
      let callbacks := array_at σ a in
      let ii := length callbacks in
      match off_scan callback callbacks 0 ii with
      | Some i =>
          let σ1 := splice1 a i σ in
          if Nat.eqb (length (array_at σ1 a)) 0
          then (true, {| _eventMap := delete eventName (_eventMap σ1);
                         arrays := arrays σ1 |})
          else (true, σ1)
      | None => (false, σ)
      end
  end.

(** What an observer sees, in order: a listener called with its argument,
    and the router's reply callback called with a result. *)
Inductive event :=
| Call (callback : listener) (details : value)
| Reply (result : value).

(** The end of a call together with the state it leaves and what was
    observed on the way. *)
Record outcome (A : Type) := Outcome {
  result : completion A;
  final : dispatcher;
  trace : list event
}.
Arguments Outcome {A} result final trace.
Arguments result {A} o.
Arguments final {A} o.
Arguments trace {A} o.

(** [o], with [pre] observed before it. *)
Definition after {A} (pre : list event) (o : outcome A) : outcome A :=
  {| result := result o; final := final o; trace := pre ++ trace o |}.

(** The body of a listener, as far as the dispatcher is concerned: it may
    register, remove and trigger, look at what these return (or catch what
    a nested trigger throws), throw, and return. *)
Inductive prog :=
| PReturn
| PThrow (v : value)
| POn (eventName : string) (callback : listener) (k : prog)
| POff (eventName : string) (callback : listener) (k : bool → prog)
| PTrigger (eventName : string) (details : value) (k : value + value → prog).

(** Running a body, given what [trigger] does. The continuation of a
    nested trigger receives [inl] of the value returned or [inr] of the
    value thrown. *)
Fixpoint run (trigger : string → value → dispatcher → outcome value)
    (p : prog) (σ : dispatcher) : outcome unit :=
  match p with
  | PReturn => Outcome (Returns ()) σ []
  | PThrow v => Outcome (Throws v) σ []
  | POn eventName callback k => run trigger k (on eventName callback σ)
  | POff eventName callback k =>
      let r := off eventName callback σ in
      run trigger (k r.1) r.2
  | PTrigger eventName details k =>
      let o := trigger eventName details σ in
      match result o with
      | Returns v => after (trace o) (run trigger (k (inl v)) (final o))
      | Throws v => after (trace o) (run trigger (k (inr v)) (final o))
      | OutOfFuel => Outcome OutOfFuel (final o) (trace o)
      end
  end.

(** The head of [trigger]: the map lookup, and the value returned around
    the loop. When the loop ends normally the function falls off its end. *)
Definition trigger_with (loop : loc → nat → value → dispatcher → outcome unit)
    (eventName : string) (details : value) (σ : dispatcher) : outcome value :=
  match _eventMap σ !! eventName with
  | None => Outcome (Returns (JBool false)) σ []
  | Some a =>
      let o := loop a 0 details σ in
      match result o with
      | Returns _ => Outcome (Returns JUndefined) (final o) (trace o)
      | Throws v => Outcome (Throws v) (final o) (trace o)
      | OutOfFuel => Outcome OutOfFuel (final o) (trace o)
      end
  end.

Section Listeners.

(** The bodies of the functions used as listeners. *)
Variable code : listener → value → prog.

(** [for (const callback of callbacks) callback(details)] from position
    [i] of the array named [a]. The array iterator reads the array's
    current length and element at every step. *)
Fixpoint for_of (fuel : nat) (a : loc) (i : nat) (details : value) (σ : dispatcher)
  : outcome unit :=
  match fuel with
  | 0 => Outcome OutOfFuel σ []
  | S fuel' =>
      match array_at σ a !! i with
      | None => Outcome (Returns ()) σ []
      | Some callback =>
          let o := run (trigger_with (for_of fuel')) (code callback details) σ in
          match result o with
          | Returns _ =>
              after (Call callback details :: trace o)
                    (for_of fuel' a (S i) details (final o))
          | Throws v => Outcome (Throws v) (final o) (Call callback details :: trace o)
          | OutOfFuel => Outcome OutOfFuel (final o) (Call callback details :: trace o)
          end
      end
  end.

(** [trigger(eventName, details)]. *)
Definition trigger (fuel : nat) (eventName : string) (details : value) (σ : dispatcher)
  : outcome value :=
  trigger_with (for_of fuel) eventName details σ.

End Listeners.

(** ** Yomichan: the message router *)

(** The two bound methods stored in [_messageHandlers]. *)
Inductive handler :=
| OnMessageGetUrl
| OnMessageOptionsUpdate.

Definition _messageHandlers : gmap string handler :=
  list_to_map [("getUrl"%string, OnMessageGetUrl);
               ("optionsUpdate"%string, OnMessageOptionsUpdate)].

(** [this._messageHandlers.get(action)]: the keys are strings, so a key of
    another type finds nothing. *)
Definition handler_for (action : value) : option handler :=
  match action with
  | JStr s => _messageHandlers !! s
  | _ => None
  end.

(** A pure step inside a stateful call. *)
Definition lift {A} (c : completion A) (σ : dispatcher) : outcome A :=
  Outcome c σ [].

(** Sequencing of stateful calls: the second runs only when the first
    returned. *)
Definition and_then {A B} (o : outcome A) (k : A → dispatcher → outcome B) : outcome B :=
  match result o with
  | Returns a => after (trace o) (k a (final o))
  | Throws v => Outcome (Throws v) (final o) (trace o)
  | OutOfFuel => Outcome OutOfFuel (final o) (trace o)
  end.

Section Router.

Variable code : listener → value → prog.

(** [window.location.href]. *)
Variable location_href : string.

(** [triggerOrphaned(error)]. *)
Definition triggerOrphaned (fuel : nat) (error : value) (σ : dispatcher) : outcome value :=
  and_then (trigger code fuel "orphaned" (JObject false [("error"%string, error)]) σ)
    (λ _ σ', Outcome (Returns JUndefined) σ' []).

(** [_onMessageGetUrl()]. *)
Definition _onMessageGetUrl (σ : dispatcher) : outcome value :=
  Outcome (Returns (JObject false [("url"%string, JStr location_href)])) σ [].

(** [_onMessageOptionsUpdate({source})]. *)
Definition _onMessageOptionsUpdate (fuel : nat) (params : value) (σ : dispatcher)
  : outcome value :=
  and_then (lift (get_member params "source") σ) (λ source σ1,
  and_then (trigger code fuel "optionsUpdate" (JObject false [("source"%string, source)]) σ1)
    (λ _ σ2, Outcome (Returns JUndefined) σ2 [])).

Definition call_handler (h : handler) (fuel : nat) (params sender : value) (σ : dispatcher)
  : outcome value :=
  match h with
  | OnMessageGetUrl => _onMessageGetUrl σ
  | OnMessageOptionsUpdate => _onMessageOptionsUpdate fuel params σ
  end.

(** [_onMessage({action, params}, sender, callback)]. A call of [callback]
    is observed as [Reply]. *)
Definition _onMessage (fuel : nat) (message sender : value) (σ : dispatcher)
  : outcome value :=
  and_then (lift (get_member message "action") σ) (λ action σ1,
  and_then (lift (get_member message "params") σ1) (λ params σ2,
  match handler_for action with
  | None => Outcome (Returns (JBool false)) σ2 []
  | Some h =>
      and_then (call_handler h fuel params sender σ2) (λ result σ3,
        Outcome (Returns (JBool false)) σ3 [Reply result])
  end)).

End Router.

(** ** Error handling *)

(** Assignment [v.key = x] on an object. *)
Definition set_member (v : value) (key : string) (x : value) : value :=
  match v with
  | JObject iter props => JObject iter (assign key x props)
  | JError props => JError (assign key x props)
  | _ => v
  end.

(** [new Error(message)]: the message, when given, is stored as a string;
    [stack] is what the engine captures at the call. *)
Definition new_Error (stack : string) (message : value) : value :=
  JError (match message with
          | JUndefined => []
          | _ => [("message"%string, JStr (to_string message))]
          end ++ [("stack"%string, JStr stack)]).

Definition errorToJson (error : value) : completion value :=
  name ← get_member error "name";
  message ← get_member error "message";
  stack ← get_member error "stack";
  Returns (JObject false [("name"%string, name);
                          ("message"%string, message);
                          ("stack"%string, stack)]).

Section Engine.

(** The stack trace the engine records when an error object is built. *)
Variable captured_stack : string.

(** Whether the global [Symbol] exists ([typeof Symbol !== 'undefined']). *)
Variable has_Symbol : bool.

Definition jsonToError (jsonError : value) : completion value :=
  message ← get_member jsonError "message";
  let error := new_Error captured_stack message in
  name ← get_member jsonError "name";
  let error := set_member error "name" name in
  stack ← get_member jsonError "stack";
  let error := set_member error "stack" stack in
  Returns error.

(** ** Common helpers *)

Definition isObject (v : value) : bool :=
  String.eqb (typeof v) "object"
  && negb (match v with JNull => true | _ => false end)
  && negb (match v with JArray _ => true | _ => false end).

(** [Number.isFinite]. *)
Definition is_finite (n : number) : bool :=
  match n with
  | Fin z => negb (overflows z)
  | NonInt _ _ => true
  | NaN | PosInf | NegInf => false
  end.

(** How many of [i = 0, 1, 2, ...] pass the test [i < length], for a
    finite [length]: three for 2.5, none for a length of zero or less. *)
Definition indices_below (length : number) : nat :=
  match length with
  | Fin n => Z.to_nat n
  | NonInt below _ => Z.to_nat (below + 1)
  | NaN | PosInf | NegInf => 0
  end.

(** The most elements an array can hold, 2^32 - 1. *)
Definition max_array_length : Z := 4294967295.

(** [array.push(x)]: the push that would take the array past its maximal
    length raises a RangeError. *)
Definition array_push (array : list value) (x : value) : completion (list value) :=
  if (Z.of_nat (length array) <? max_array_length)%Z then Returns (array ++ [x])
  else Throws range_error.

(** The copy loop of [toIterable]: [for (let i = 0; i < length; ++i)
    array.push(value[i])], with [todo] the number of indices left. *)
Fixpoint copy_indices (v : value) (i todo : nat) (array : list value)
  : completion (list value) :=
  match todo with
  | 0 => Returns array
  | S todo' =>
      x ← get_index v i;
      array' ← array_push array x;
      copy_indices v (S i) todo' array'
  end.

Definition could_not_convert : value :=
  new_Error captured_stack (JStr "Could not convert to iterable").

Definition toIterable (v : value) : completion value :=
  iterable ← (if has_Symbol then get_iterator v else Returns false);
  if iterable then Returns v
  else if negb (match v with JNull => true | _ => false end)
          && String.eqb (typeof v) "object"
  then
    length ← get_member v "length";
    match length with
    | JNum n =>
        if is_finite n then
          array ← copy_indices v 0 (indices_below n) [];
          Returns (JArray array)
        else Throws could_not_convert
    | _ => Throws could_not_convert
    end
  else Throws could_not_convert.

End Engine.

(** ** Async utilities *)

(** The state of a promise. *)
Inductive settle :=
| Pending
| Fulfilled (v : value)
| Rejected (v : value).

(** The two closures [promiseTimeout] defines. *)
Inductive method :=
| MResolve
| MReject.

(** The promise [promiseTimeout] returns together with the variables its
    closures share. [timer] is the pending [window.setTimeout] (its delay),
    [None] for [null]; [promiseResolve] and [promiseReject] say whether
    the variable still holds the promise's resolver; [props] are the
    function-valued properties set on the promise object; [follows] is the
    thenable the promise was resolved with, when there is one: the promise
    then stays pending until that thenable settles it. *)
Record timeout_promise := TimeoutPromise {
  state : settle;
  timer : option number;
  promiseResolve : bool;
  promiseReject : bool;
  resolveValue : value;
  props : list (string * method);
  follows : option value
}.

(** A thenable: a value whose [then] is a function. *)
Definition thenable (v : value) : bool :=
  match get_member v "then" with
  | Returns (JFunction _ _) => true
  | _ => false
  end.

(** The resolving functions the [Promise] constructor hands to its
    executor, on the state of the promise. Resolving with a thenable does
    not fulfil the promise, which follows the thenable from then on; a
    promise that is settled or follows a thenable ignores both functions. *)
Definition call_resolver (m : method) (v : value) (s : settle) (f : option value)
  : settle * option value :=
  match s, f with
  | Pending, None =>
      match m with
      | MResolve => if thenable v then (Pending, Some v) else (Fulfilled v, None)
      | MReject => (Rejected v, None)
      end
  | _, _ => (s, f)
  end.

(** [delay <= 0] on numbers. *)
Definition le_zero (n : number) : bool :=
  match n with
  | Fin z => Z.leb z 0
  | NegInf => true
  | NaN | PosInf => false
  | NonInt below _ => Z.ltb below 0
  end.

Definition promiseTimeout (delay : number) (resolveValue : value) : timeout_promise :=
  if le_zero delay then
    (* return Promise.resolve(resolveValue); *)
    {| state := Fulfilled resolveValue; timer := None;
       promiseResolve := false; promiseReject := false;
       resolveValue := resolveValue; props := []; follows := None |}
  else
    {| state := Pending; timer := Some delay;
       promiseResolve := true; promiseReject := true;
       resolveValue := resolveValue;
       props := [("resolve"%string, MResolve); ("reject"%string, MReject)];
       follows := None |}.

(** [complete(callback, value)], where [callback] is the current content
    of [promiseResolve] or of [promiseReject]. *)
Definition complete (m : method) (v : value) (p : timeout_promise) : timeout_promise :=
  let callback := match m with MResolve => promiseResolve p | MReject => promiseReject p end in
  if negb callback then p
  else
    let resolved := call_resolver m v (state p) (follows p) in
    {| state := resolved.1;
       timer := None;
       promiseResolve := false; promiseReject := false;
       resolveValue := resolveValue p; props := props p;
       follows := resolved.2 |}.

(** The timer callback: [timer = null; resolve(resolveValue)]. It runs only
    while the timer is pending. *)
Definition timer_fires (p : timeout_promise) : timeout_promise :=
  match timer p with
  | None => p
  | Some _ =>
      complete MResolve (resolveValue p)
        {| state := state p; timer := None;
           promiseResolve := promiseResolve p; promiseReject := promiseReject p;
           resolveValue := resolveValue p; props := props p; follows := follows p |}
  end.

Fixpoint method_named (key : string) (ps : list (string * method)) : option method :=
  match ps with
  | [] => None
  | (k, m) :: rest => if String.eqb k key then Some m else method_named key rest
  end.

(** The call [promise.key(v)] by a holder of the promise: a TypeError when
    the promise has no such function. *)
Definition call_property (key : string) (v : value) (p : timeout_promise)
  : completion timeout_promise :=
  match method_named key (props p) with
  | Some m => Returns (complete m v p)
  | None => Throws type_error
  end.

(** ** Regular expressions *)

(** A regular expression object: [matcher str i] tries a match that starts
    at index [i] and gives its end index and captures; the flags; and
    [lastIndex]. *)
Record regexp := RegExp {
  matcher : string → nat → option (nat * list value);
  global : bool;
  sticky : bool;
  lastIndex : nat
}.

(** The array [exec] returns: its [index], and the matched text followed by
    the captures. *)
Record match_array := MatchArray {
  match_index : nat;
  items : list value
}.

(** [String.prototype.substring]: the two indices are clamped to the
    length and swapped when out of order. *)
Definition substring (s : string) (from to : nat) : string :=
  let from := Nat.min from (String.length s) in
  let to := Nat.min to (String.length s) in
  String.substring (Nat.min from to) (Nat.max from to - Nat.min from to) s.

(** The search of [exec]: try index [i], then the next, for [todo]
    indices; a sticky expression tries one index only. *)
Fixpoint exec_from (R : regexp) (str : string) (i todo : nat)
  : option (nat * nat * list value) :=
  match todo with
  | 0 => None
  | S todo' =>
      match matcher R str i with
      | Some (e, captures) => Some (i, e, captures)
      | None => if sticky R then None else exec_from R str (S i) todo'
      end
  end.

Definition set_lastIndex (R : regexp) (i : nat) : regexp :=
  {| matcher := matcher R; global := global R; sticky := sticky R; lastIndex := i |}.

(** [regex.exec(str)]: the match (or [null]) and the expression with its
    [lastIndex] updated. *)
Definition exec (R : regexp) (str : string) : option match_array * regexp :=
  let moves := global R || sticky R in
  let start := if moves then lastIndex R else 0 in
  match exec_from R str start (S (String.length str) - start) with
  | None => (None, if moves then set_lastIndex R 0 else R)
  | Some (i, e, captures) =>
      (Some {| match_index := i; items := JStr (substring str i e) :: captures |},
       if moves then set_lastIndex R e else R)
  end.

(** What [stringReplaceAsync] leaves behind: the promise it returns, the
    argument lists [replacer] was called with, and the expression. *)
Record replaced := Replaced {
  promise : settle;
  calls : list (list value);
  regex_after : regexp
}.

(** [Promise.all]: rejected as soon as a part is, pending while a part is,
    fulfilled with all the values otherwise. *)
Fixpoint promise_all (parts : list settle) : settle :=
  match parts with
  | [] => Fulfilled (JArray [])
  | Rejected v :: _ => Rejected v
  | Pending :: rest =>
      match promise_all rest with
      | Rejected v => Rejected v
      | _ => Pending
      end
  | Fulfilled v :: rest =>
      match promise_all rest with
      | Fulfilled (JArray vs) => Fulfilled (JArray (v :: vs))
      | s => s
      end
  end.

Section Replace.

(** What [replacer] gives for an argument list: a value (a promise already
    fulfilled with it) or a promise in some state. *)
Variable replacer : list value → settle.

(** The [while] loop of [stringReplaceAsync]. *)
Fixpoint replace_loop (fuel : nat) (str : string) (regex : regexp) (index : nat)
    (parts : list settle) (calls : list (list value))
  : completion (regexp * nat * list settle * list (list value)) :=
  match fuel with
  | 0 => OutOfFuel
  | S fuel' =>
      match exec regex str with
      | (None, regex') => Returns (regex', index, parts, calls)
      | (Some m, regex') =>
          let args := items m ++ [JNum (Fin (Z.of_nat (match_index m))); JStr str] in
          replace_loop fuel' str regex' (lastIndex regex')
            (parts ++ [Fulfilled (JStr (substring str index (match_index m)));
                       replacer args])
            (calls ++ [args])
      end
  end.

Definition stringReplaceAsync (fuel : nat) (str : string) (regex : regexp)
  : completion replaced :=
  r ← replace_loop fuel str regex 0 [] [];
  let '(regex', index, parts, calls) := r in
  if Nat.eqb (length parts) 0 then
    Returns {| promise := Fulfilled (JStr str); calls := calls; regex_after := regex' |}
  else
    let parts := parts ++ [Fulfilled (JStr (substring str index (String.length str)))] in
    Returns {| promise := match promise_all parts with
                          | Fulfilled (JArray v) => Fulfilled (JStr (array_join "" v))
                          | s => s
                          end;
               calls := calls; regex_after := regex' |}.

End Replace.

(** ** The dispatcher's invariant *)

(** No event name is mapped to an empty array. *)
Definition no_empty_sequence (σ : dispatcher) : Prop :=
  ∀ eventName a, _eventMap σ !! eventName = Some a →
    ∃ callbacks, arrays σ !! a = Some callbacks ∧ callbacks ≠ [].

(** Two event names never share an array object. *)
Definition no_shared_array (σ : dispatcher) : Prop :=
  ∀ e1 e2 a, _eventMap σ !! e1 = Some a → _eventMap σ !! e2 = Some a → e1 = e2.

(** The invariant that every operation keeps: the one of interest and what
    makes it inductive. *)
Definition wf (σ : dispatcher) : Prop :=
  no_empty_sequence σ ∧ no_shared_array σ.

(** The states a dispatcher can be in: a new one, and what [on], [off] and
    [trigger] make of a state it can be in. *)
Inductive reachable (code : listener → value → prog) : dispatcher → Prop :=
| reach_new : reachable code new_dispatcher
| reach_on σ eventName callback :
    reachable code σ → reachable code (on eventName callback σ)
| reach_off σ eventName callback :
    reachable code σ → reachable code (off eventName callback σ).2
| reach_trigger σ fuel eventName details :
    reachable code σ → reachable code (final (trigger code fuel eventName details σ)).

(** A listener whose body, called with [details], returns without using
    the dispatcher. *)
Definition quiet (code : listener → value → prog) (details : value) (l : listener) : Prop :=
  code l details = PReturn.

(** The calls a loop over [callbacks] makes when nothing interferes. *)
Definition calls_of (details : value) (callbacks : list listener) : list event :=
  map (λ l, Call l details) callbacks.

(** ** Statements about the helpers *)

(** An error-like value whose three fields hold strings, as the envelope
    [{name, message, stack}] has them. *)
Definition populated (e : value) : Prop :=
  ∃ name message stack : string,
    get_member e "name" = Returns (JStr name)
    ∧ get_member e "message" = Returns (JStr message)
    ∧ get_member e "stack" = Returns (JStr stack).

(** The text of a message that is a string, a boolean, [null] or missing,
    as [new Error(message)] stores it. *)
Definition plain_message (message : value) : option string :=
  match message with
  | JUndefined => Some ""%string
  | JNull => Some "null"%string
  | JBool true => Some "true"%string
  | JBool false => Some "false"%string
  | JStr text => Some text
  | _ => None
  end.

(** [errorToJson(jsonToError(errorToJson(e)))]. *)
Definition round_trip (captured_stack : string) (e : value) : completion value :=
  j ← errorToJson e;
  e' ← jsonToError captured_stack j;
  errorToJson e'.

(** [v] has a [Symbol.iterator] the code can see. *)
Definition natively_iterable (has_Symbol : bool) (v : value) : Prop :=
  has_Symbol = true ∧ get_iterator v = Returns true.

(** [v.length] is the finite number [length]. *)
Definition finite_length (v : value) (length : number) : Prop :=
  get_member v "length" = Returns (JNum length) ∧ is_finite length = true.

(** Array-like in the wide sense: some finite numeric length. *)
Definition array_like (v : value) : Prop := ∃ length, finite_length v length.

(** What [typeof v === 'object'] and [v !== null] select. *)
Definition object_like (v : value) : Prop :=
  v ≠ JNull ∧ typeof v = "object"%string.

(** [value[i]], with [undefined] where the read would raise. *)
Definition index_value (v : value) (i : nat) : value :=
  match get_index v i with
  | Returns x => x
  | _ => JUndefined
  end.

(** The behaviour of [toIterable] in the wide reading: an error "could not
    convert" for every input that is neither iterable nor array-like, a
    normal return for every other input. *)
Definition converts_or_fails (captured_stack : string) (has_Symbol : bool) (v : value)
  : Prop :=
  (¬ natively_iterable has_Symbol v → ¬ array_like v →
   toIterable captured_stack has_Symbol v = Throws (could_not_convert captured_stack))
  ∧ (natively_iterable has_Symbol v ∨ array_like v →
     ∃ r, toIterable captured_stack has_Symbol v = Returns r).

(** The expression matches nowhere in [str]. *)
Definition no_match (regex : regexp) (str : string) : Prop :=
  ∀ i, i ≤ String.length str → matcher regex str i = None.

(** A matcher for the literal text [pat]. *)
Definition literal (pat : string) (str : string) (i : nat) : option (nat * list value) :=
  if String.eqb (String.substring i (String.length pat) str) pat
  then Some (i + String.length pat, [])
  else None.

(** ** Extension information *)

(** The two globals the file looks at; [None] is an identifier that is not
    defined. *)
Record globals := Globals {
  chrome : option value;
  browser : option value
}.

(** [typeof x] of a global: 'undefined' when it is not defined. *)
Definition typeof_global (x : option value) : string :=
  match x with
  | None => "undefined"
  | Some v => typeof v
  end.

Definition reference_error : value := JError [("name"%string, JStr "ReferenceError")].

(** Reading a global: a ReferenceError when it is not defined. *)
Definition read_global (x : option value) : completion value :=
  match x with
  | None => Throws reference_error
  | Some v => Returns v
  end.

Definition is_null (x : option value) : bool :=
  match x with
  | Some JNull => true
  | _ => false
  end.

Definition _extensionHasChrome (g : globals) : bool :=
  String.eqb (typeof_global (chrome g)) "object" && negb (is_null (chrome g)).

Definition _extensionHasBrowser (g : globals) : bool :=
  String.eqb (typeof_global (browser g)) "object" && negb (is_null (browser g)).

(** The initialiser of [EXTENSION_IS_BROWSER_EDGE], with the short
    circuits of [&&] and [||]. *)
Definition EXTENSION_IS_BROWSER_EDGE (g : globals) : completion bool :=
  if _extensionHasBrowser g then
    if negb (_extensionHasChrome g) then Returns true
    else
      c ← read_global (chrome g);
      chrome_runtime ← get_member c "runtime";
      if String.eqb (typeof chrome_runtime) "undefined" then
        b ← read_global (browser g);
        browser_runtime ← get_member b "runtime";
        Returns (negb (String.eqb (typeof browser_runtime) "undefined"))
      else Returns false
  else Returns false.

(** The top of the file: the constant, then [chrome = browser] on Edge. *)
Definition load_extension_information (g : globals) : completion globals :=
  edge ← EXTENSION_IS_BROWSER_EDGE g;
  if (edge : bool) then Returns {| chrome := browser g; browser := browser g |}
  else Returns g.

(** A global that is a non-null object with a defined [runtime]. *)
Definition has_runtime (x : option value) : Prop :=
  ∃ v r, x = Some v ∧ typeof v = "object"%string ∧ v ≠ JNull
         ∧ get_member v "runtime" = Returns r ∧ r ≠ JUndefined.

(** ** stringReverse *)

(** A string as [split('')] sees it: its UTF-16 code units. *)
Definition is_high (c : N) : bool := (N.leb 0xD800 c && N.leb c 0xDBFF)%N.
Definition is_low (c : N) : bool := (N.leb 0xDC00 c && N.leb c 0xDFFF)%N.

(** [replace(/([\uDC00-\uDFFF])([\uD800-\uDBFF])/g, '$2$1')]: from left to
    right, a low surrogate followed by a high one is swapped and the
    search goes on after the pair. *)
Fixpoint swap_surrogates (units : list N) : list N :=
  match units with
  | a :: (b :: rest) as tail =>
      if is_low a && is_high b then b :: a :: swap_surrogates rest
      else a :: swap_surrogates tail
  | _ => units
  end.

Definition stringReverse (units : list N) : list N :=
  swap_surrogates (rev units).

(** A code point and its code units: one unit outside the surrogate range,
    or a high surrogate followed by a low one. *)
Inductive code_point :=
| Bmp (c : N)
| Astral (high low : N).

Definition valid_code_point (p : code_point) : Prop :=
  match p with
  | Bmp c => is_high c = false ∧ is_low c = false
  | Astral h l => is_high h = true ∧ is_low l = true
  end.

Definition units_of (p : code_point) : list N :=
  match p with
  | Bmp c => [c]
  | Astral h l => [h; l]
  end.

Definition utf16 (ps : list code_point) : list N :=
  concat (map units_of ps).

(** ** Statements about the dispatcher and the promise *)

(** The sequence without its first occurrence of [l]. *)
Fixpoint remove_first (l : listener) (cs : list listener) : list listener :=
  match cs with
  | [] => []
  | c :: rest => if bool_decide (c = l) then rest else c :: remove_first l rest
  end.

Definition is_call (ev : event) : Prop :=
  match ev with
  | Call _ _ => True
  | Reply _ => False
  end.


(** The relay of an 'optionsUpdate' message in its wide reading, whatever
    the listeners do: given enough fuel, every listener registered for
    'optionsUpdate' is called with [{source}] before the reply callback is
    called. *)
Definition notifies_all_before_reply (code : listener → value → prog)
    (location_href : string) (message sender source : value) (σ : dispatcher) : Prop :=
  ∃ fuel0, ∀ fuel, fuel0 ≤ fuel →
    ∀ l, l ∈ callbacks_of σ "optionsUpdate" →
      ∃ pre mid r,
        trace (_onMessage code location_href fuel message sender σ) =
        pre ++ Call l (JObject false [("source"%string, source)]) :: mid ++ [Reply r].

(** What can happen to a promise of [promiseTimeout] after it is
    returned: a holder calls [resolve] or [reject], or the timer fires. *)
Inductive action :=
| CallResolve (v : value)
| CallReject (v : value)
| TimerFires.

Definition step (p : timeout_promise) (act : action) : timeout_promise :=
  match act with
  | CallResolve v => complete MResolve v p
  | CallReject v => complete MReject v p
  | TimerFires => timer_fires p
  end.

(** What resolving a pending promise with [x] leaves: the promise
    fulfilled with [x], or, when [x] is a thenable, pending and following
    [x]. *)
Definition resolved_with (x : value) (p : timeout_promise) : Prop :=
  if thenable x then state p = Pending ∧ follows p = Some x
  else state p = Fulfilled x ∧ follows p = None.

(** A matcher whose matches are not empty and end inside the string. *)
Definition advancing (regex : regexp) (str : string) : Prop :=
  ∀ i e captures, matcher regex str i = Some (e, captures) →
    i < e ∧ e ≤ String.length str.

(** A replacer that gives back the matched text. *)
Definition same_text (args : list value) : settle :=
  Fulfilled (default JUndefined (head args)).

(** * Proofs *)

Lemma array_at_lookup σ a cs : arrays σ !! a = Some cs → array_at σ a = cs.
Proof. unfold array_at. by intros ->. Qed.

Lemma alter_at_end {A} (f : A → A) (l : list A) (x : A) :
  alter f (length l) (l ++ [x]) = l ++ [f x].
Proof.
  induction l as [|y l IH]; [done|].
  change (y :: alter f (length l) (l ++ [x]) = y :: (l ++ [f x])).
  by rewrite IH.
Qed.

Lemma wf_new_dispatcher : wf new_dispatcher.
Proof.
  split.
  - intros e a H. cbn in H. by rewrite lookup_empty in H.
  - intros e1 e2 a H. cbn in H. by rewrite lookup_empty in H.
Qed.

Lemma push_lookup a callback σ b :
  arrays (push a callback σ) !! b =
  if decide (a = b) then (λ cs, cs ++ [callback]) <$> arrays σ !! a else arrays σ !! b.
Proof.
  unfold push; simpl. apply list_lookup_alter.
Qed.

Lemma push_wf a callback σ : wf σ → wf (push a callback σ).
Proof.
  intros [Hne Hinj]. split; [|exact Hinj].
  intros e b Hb. destruct (Hne e b Hb) as (cs & Hcs & Hnil).
  rewrite push_lookup. destruct (decide (a = b)) as [->|_].
  - exists (cs ++ [callback]). rewrite Hcs. split; [done|].
    by destruct cs.
  - eauto.
Qed.

Lemma on_wf eventName callback σ : wf σ → wf (on eventName callback σ).
Proof.
  intros Hwf. unfold on.
  destruct (_eventMap σ !! eventName) as [a|] eqn:He; [by apply push_wf|].
  destruct Hwf as [Hne Hinj].
  assert (Hlt : ∀ e b, _eventMap σ !! e = Some b → b < length (arrays σ)).
  { intros e b Hb. destruct (Hne e b Hb) as (cs & Hcs & _).
    by eapply lookup_lt_Some. }
  split.
  - intros e b. unfold push; simpl. rewrite alter_at_end.
    destruct (decide (e = eventName)) as [->|Hd].
    + rewrite lookup_insert_eq. intros [= <-].
      exists [callback]. split; [|done].
      by rewrite lookup_app_r, Nat.sub_diag.
    + rewrite lookup_insert_ne by done. intros Hb.
      destruct (Hne e b Hb) as (cs & Hcs & Hnil).
      exists cs. split; [|done].
      by rewrite lookup_app_l by (by eapply lookup_lt_Some).
  - intros e1 e2 b. unfold push; simpl.
    destruct (decide (e1 = eventName)) as [->|H1];
      destruct (decide (e2 = eventName)) as [->|H2]; [done|..].
    + rewrite lookup_insert_eq, lookup_insert_ne by done.
      intros [= <-] Hb. apply Hlt in Hb. lia.
    + rewrite lookup_insert_eq, lookup_insert_ne by done.
      intros Hb [= <-]. apply Hlt in Hb. lia.
    + rewrite !lookup_insert_ne by done. apply Hinj.
Qed.

Lemma on_callbacks eventName callback σ :
  wf σ →
  callbacks_of (on eventName callback σ) eventName = callbacks_of σ eventName ++ [callback].
Proof.
  intros [Hne _]. unfold on, callbacks_of.
  destruct (_eventMap σ !! eventName) as [a|] eqn:He.
  - simpl. rewrite He. destruct (Hne _ _ He) as (cs & Hcs & _).
    unfold array_at. by rewrite push_lookup, decide_True, Hcs by done.
  - unfold push; simpl. rewrite lookup_insert_eq, alter_at_end.
    unfold array_at; simpl. by rewrite lookup_app_r, Nat.sub_diag.
Qed.


(** The scan finds the first position at or after [i] that holds the
    callback. *)
Lemma off_scan_Some callback callbacks i todo j :
  off_scan callback callbacks i todo = Some j →
  callbacks !! j = Some callback ∧ i ≤ j < i + todo ∧
  ∀ k, i ≤ k < j → callbacks !! k ≠ Some callback.
Proof.
  revert i. induction todo as [|todo IH]; intros i; simpl; [done|].
  case_bool_decide as Hi.
  - intros [= <-]. split; [done|]. split; [lia|]. intros k Hk. lia.
  - intros Hj. destruct (IH _ Hj) as (H1 & H2 & H3).
    split; [done|]. split; [lia|].
    intros k Hk. destruct (decide (k = i)) as [->|]; [done|].
    apply H3. lia.
Qed.

Lemma off_scan_None callback callbacks i todo :
  off_scan callback callbacks i todo = None →
  ∀ k, i ≤ k < i + todo → callbacks !! k ≠ Some callback.
Proof.
  revert i. induction todo as [|todo IH]; intros i; simpl; [intros _ k Hk; lia|].
  case_bool_decide as Hi; [done|].
  intros Hj k Hk. destruct (decide (k = i)) as [->|]; [done|].
  apply (IH _ Hj). lia.
Qed.

Lemma off_wf eventName callback σ : wf σ → wf (off eventName callback σ).2.
Proof.
  intros Hwf. unfold off.
  destruct (_eventMap σ !! eventName) as [a|] eqn:He; [|done].
  destruct (off_scan callback (array_at σ a) 0 (length (array_at σ a)))
    as [i|] eqn:Hscan; [|done].
  destruct Hwf as [Hne Hinj].
  assert (Hother : ∀ e b, e ≠ eventName → _eventMap σ !! e = Some b →
            ∃ cs, arrays (splice1 a i σ) !! b = Some cs ∧ cs ≠ []).
  { intros e b Hd Hb. destruct (Hne e b Hb) as (cs & Hcs & Hnil).
    exists cs. split; [|done]. unfold splice1; simpl.
    rewrite list_lookup_alter_ne; [done|].
    intros ->. apply Hd. by eapply Hinj. }
  destruct (length (array_at (splice1 a i σ) a) =? 0) eqn:Hlen; simpl.
  - split.
    + intros e b. cbn. destruct (decide (e = eventName)) as [->|Hd].
      * by rewrite lookup_delete_eq.
      * rewrite lookup_delete_ne by done. by apply Hother.
    + intros e1 e2 b H1 H2. cbn in H1, H2.
      apply lookup_delete_Some in H1 as [_ H1].
      apply lookup_delete_Some in H2 as [_ H2]. by eapply Hinj.
  - split; [|exact Hinj].
    intros e b Hb. cbn in Hb.
    destruct (decide (e = eventName)) as [->|Hd]; [|by apply (Hother e)].
    assert (b = a) as -> by congruence.
    apply Nat.eqb_neq in Hlen. unfold array_at in Hlen.
    destruct (arrays (splice1 a i σ) !! a) as [cs|]; [|done].
    exists cs. split; [done|]. by intros ->.
Qed.

Section ListenerProofs.

Variable code : listener → value → prog.

(** A body keeps the invariant when the triggers it nests do. *)
Lemma run_wf trig p σ :
  (∀ e d σ', wf σ' → wf (final (trig e d σ'))) →
  wf σ → wf (final (run trig p σ)).
Proof.
  intros Htrig. revert σ.
  induction p as [|v|e l k IH|e l k IH|e d k IH]; intros σ Hwf; simpl.
  - done.
  - done.
  - by apply IH, on_wf.
  - by apply IH, off_wf.
  - specialize (Htrig e d σ Hwf).
    destruct (result (trig e d σ)); simpl; [by apply IH| by apply IH| done].
Qed.

Lemma trigger_with_wf loop e d σ :
  (∀ a i d' σ', wf σ' → wf (final (loop a i d' σ'))) →
  wf σ → wf (final (trigger_with loop e d σ)).
Proof.
  intros Hloop Hwf. unfold trigger_with.
  destruct (_eventMap σ !! e) as [a|]; [|done].
  specialize (Hloop a 0 d σ Hwf).
  by destruct (result (loop a 0 d σ)).
Qed.

(** The loop keeps the invariant whatever the listeners do, and however it
    ends. *)
Lemma for_of_wf fuel a i d σ :
  wf σ → wf (final (for_of code fuel a i d σ)).
Proof.
  revert a i d σ. induction fuel as [|fuel IH]; intros a i d σ Hwf; simpl; [done|].
  destruct (array_at σ a !! i) as [callback|]; [|done].
  assert (Hrun : wf (final (run (trigger_with (for_of code fuel)) (code callback d) σ))).
  { apply run_wf; [|done]. intros e d' σ' Hwf'. by apply trigger_with_wf. }
  destruct (result (run (trigger_with (for_of code fuel)) (code callback d) σ));
    simpl; [by apply IH|done|done].
Qed.

Lemma trigger_wf fuel e d σ :
  wf σ → wf (final (trigger code fuel e d σ)).
Proof.
  intros Hwf. apply trigger_with_wf; [|done].
  intros a i d' σ'. apply for_of_wf.
Qed.

(** With quiet listeners the loop calls each element from [i] on, in
    order, leaves the state as it is and returns. *)
Lemma for_of_quiet fuel a i d σ :
  Forall (quiet code d) (drop i (array_at σ a)) →
  length (array_at σ a) - i < fuel →
  for_of code fuel a i d σ =
  Outcome (Returns ()) σ (calls_of d (drop i (array_at σ a))).
Proof.
  revert i. induction fuel as [|fuel IH]; intros i Hq Hfuel; [lia|].
  simpl. destruct (array_at σ a !! i) as [callback|] eqn:Hi.
  - rewrite (drop_S _ _ _ Hi) in Hq |- *.
    apply Forall_cons in Hq as [Hc Hq]. unfold quiet in Hc. rewrite Hc. simpl.
    apply lookup_lt_Some in Hi.
    rewrite IH by (done || lia). done.
  - apply lookup_ge_None in Hi. by rewrite drop_ge.
Qed.

Lemma trigger_quiet fuel e a d σ :
  _eventMap σ !! e = Some a →
  Forall (quiet code d) (callbacks_of σ e) →
  length (callbacks_of σ e) < fuel →
  trigger code fuel e d σ =
  Outcome (Returns JUndefined) σ (calls_of d (callbacks_of σ e)).
Proof.
  unfold trigger, trigger_with, callbacks_of. intros -> Hq Hfuel.
  rewrite for_of_quiet; rewrite ?drop_0; [done|done|lia].
Qed.

Lemma trigger_no_entry fuel e d σ :
  _eventMap σ !! e = None →
  trigger code fuel e d σ = Outcome (Returns (JBool false)) σ [].
Proof. unfold trigger, trigger_with. by intros ->. Qed.

(** More fuel changes nothing once a call has ended within the bound. *)
Lemma run_more_fuel trig1 trig2 p σ :
  (∀ e d σ', result (trig1 e d σ') ≠ OutOfFuel → trig2 e d σ' = trig1 e d σ') →
  result (run trig1 p σ) ≠ OutOfFuel →
  run trig2 p σ = run trig1 p σ.
Proof.
  intros Htrig. revert σ.
  induction p as [|v|e l k IH|e l k IH|e d k IH]; intros σ Hdef; simpl in *.
  - done.
  - done.
  - by apply IH.
  - by apply IH.
  - assert (Ho : result (trig1 e d σ) ≠ OutOfFuel).
    { intros Ho. by rewrite Ho in Hdef. }
    rewrite (Htrig _ _ _ Ho).
    destruct (result (trig1 e d σ)) as [v|v|]; [| |done].
    + by rewrite IH.
    + by rewrite IH.
Qed.

Lemma trigger_with_more_fuel loop1 loop2 e d σ :
  (∀ a i d' σ', result (loop1 a i d' σ') ≠ OutOfFuel →
     loop2 a i d' σ' = loop1 a i d' σ') →
  result (trigger_with loop1 e d σ) ≠ OutOfFuel →
  trigger_with loop2 e d σ = trigger_with loop1 e d σ.
Proof.
  intros Hloop. unfold trigger_with.
  destruct (_eventMap σ !! e) as [a|]; [|done].
  intros Hdef. rewrite Hloop; [done|].
  intros Ho. by rewrite Ho in Hdef.
Qed.

Lemma for_of_more_fuel fuel a i d σ :
  result (for_of code fuel a i d σ) ≠ OutOfFuel →
  for_of code (S fuel) a i d σ = for_of code fuel a i d σ.
Proof.
  revert a i d σ. induction fuel as [|fuel IH]; intros a i d σ Hdef; [done|].
  change (for_of code (S (S fuel)) a i d σ) with
    (match array_at σ a !! i with
     | None => Outcome (Returns ()) σ []
     | Some callback =>
         let o := run (trigger_with (for_of code (S fuel))) (code callback d) σ in
         match result o with
         | Returns _ =>
             after (Call callback d :: trace o)
                   (for_of code (S fuel) a (S i) d (final o))
         | Throws v => Outcome (Throws v) (final o) (Call callback d :: trace o)
         | OutOfFuel => Outcome OutOfFuel (final o) (Call callback d :: trace o)
         end
     end).
  change (for_of code (S fuel) a i d σ) with
    (match array_at σ a !! i with
     | None => Outcome (Returns ()) σ []
     | Some callback =>
         let o := run (trigger_with (for_of code fuel)) (code callback d) σ in
         match result o with
         | Returns _ =>
             after (Call callback d :: trace o)
                   (for_of code fuel a (S i) d (final o))
         | Throws v => Outcome (Throws v) (final o) (Call callback d :: trace o)
         | OutOfFuel => Outcome OutOfFuel (final o) (Call callback d :: trace o)
         end
     end) in Hdef |- *.
  destruct (array_at σ a !! i) as [callback|]; [|done].
  cbv zeta in Hdef |- *.
  assert (Ho : result (run (trigger_with (for_of code fuel)) (code callback d) σ)
               ≠ OutOfFuel).
  { intros Ho. by rewrite Ho in Hdef. }
  rewrite (run_more_fuel (trigger_with (for_of code fuel))
             (trigger_with (for_of code (S fuel))) _ _
             (λ e d' σ', trigger_with_more_fuel _ _ e d' σ' IH) Ho).
  destruct (result (run (trigger_with (for_of code fuel)) (code callback d) σ));
    [|done|done].
  rewrite IH; [done|]. exact Hdef.
Qed.

Lemma trigger_more_fuel fuel fuel' e d σ :
  fuel ≤ fuel' →
  result (trigger code fuel e d σ) ≠ OutOfFuel →
  trigger code fuel' e d σ = trigger code fuel e d σ.
Proof.
  intros Hle Hdef. induction Hle as [|fuel' _ IH]; [done|].
  rewrite <- IH. unfold trigger in *.
  apply trigger_with_more_fuel; [|by rewrite IH].
  intros a i d' σ'. apply for_of_more_fuel.
Qed.

End ListenerProofs.

(** ** EventDispatcher.trigger *)

(** C1. When [eventName] has an entry whose listeners are quiet, [trigger]
    calls every listener of the sequence, in registration order, each with
    [details], and leaves the dispatcher as it was. The function then
    falls off its end: the value returned is [undefined], which is
    false-equivalent, where a "notified" result was promised. *)
Theorem trigger_calls_all_returns_undefined code fuel eventName a details σ :
  _eventMap σ !! eventName = Some a →
  Forall (quiet code details) (callbacks_of σ eventName) →
  length (callbacks_of σ eventName) < fuel →
  trigger code fuel eventName details σ =
    Outcome (Returns JUndefined) σ (calls_of details (callbacks_of σ eventName))
  ∧ to_boolean JUndefined = false.
Proof.
  intros He Hq Hfuel. split; [|done].
  by eapply trigger_quiet.
Qed.

Lemma trigger_calls_all_returns_undefined_witness :
  let code := λ (_ : listener) (_ : value), PReturn in
  let σ := on "update" 8 (on "update" 7 new_dispatcher) in
  trigger code 3 "update" (JStr "x") σ =
    Outcome (Returns JUndefined) σ [Call 7 (JStr "x"); Call 8 (JStr "x")]
  ∧ to_boolean JUndefined = false.
Proof.
  intros code σ.
  apply (trigger_calls_all_returns_undefined code 3 "update" 0 (JStr "x") σ).
  - reflexivity.
  - repeat constructor.
  - vm_compute. lia.
Defined.

(** ** EventDispatcher.off *)

(** C2. For an event name without an entry, [off] raises nothing and
    leaves the dispatcher as it is, but the value it returns is [true]:
    "removed", where "not found" was promised. The same scan that finds
    nothing in an existing sequence returns [false]
    ([off_absent_listener]). *)
Theorem off_unknown_event_returns_true eventName callback σ :
  _eventMap σ !! eventName = None →
  off eventName callback σ = (true, σ).
Proof. unfold off. by intros ->. Qed.

Lemma off_unknown_event_returns_true_witness :
  let σ := (off "update" 7 (on "update" 7 new_dispatcher)).2 in
  _eventMap σ !! "update"%string = None ∧ off "update" 7 σ = (true, σ).
Proof.
  intros σ.
  assert (H : _eventMap σ !! "update"%string = None) by reflexivity.
  split; [exact H|].
  exact (off_unknown_event_returns_true "update" 7 σ H).
Defined.

(** The sibling path: a listener that is not in an existing sequence is
    reported as not found. *)
Lemma off_absent_listener eventName callback a σ :
  _eventMap σ !! eventName = Some a →
  callback ∉ array_at σ a →
  off eventName callback σ = (false, σ).
Proof.
  unfold off. intros -> Hnotin.
  destruct (off_scan callback (array_at σ a) 0 (length (array_at σ a)))
    as [i|] eqn:Hscan; [|done].
  apply off_scan_Some in Hscan as (Hi & _).
  exfalso. apply Hnotin. by eapply list_elem_of_lookup_2.
Qed.

(** [off] removes the first occurrence of the listener and nothing else. *)
Lemma off_first_occurrence eventName callback a pre post σ :
  _eventMap σ !! eventName = Some a →
  arrays σ !! a = Some (pre ++ callback :: post) →
  callback ∉ pre →
  (off eventName callback σ).1 = true ∧
  array_at (off eventName callback σ).2 a = pre ++ post.
Proof.
  intros He Ha Hpre. unfold off. rewrite He.
  rewrite (array_at_lookup _ _ _ Ha).
  destruct (off_scan callback (pre ++ callback :: post) 0
              (length (pre ++ callback :: post))) as [i|] eqn:Hscan.
  - apply off_scan_Some in Hscan as (Hi & _ & Hfirst).
    assert (i = length pre) as ->.
    { destruct (Nat.lt_trichotomy i (length pre)) as [Hlt|[->|Hgt]]; [|done|].
      - rewrite lookup_app_l in Hi by done.
        exfalso. apply Hpre. by eapply list_elem_of_lookup_2.
      - exfalso. apply (Hfirst (length pre)); [lia|].
        by rewrite list_lookup_middle. }
    assert (Hsp : array_at (splice1 a (length pre) σ) a = pre ++ post).
    { unfold array_at, splice1; simpl.
      rewrite list_lookup_alter, decide_True, Ha by done. simpl.
      by rewrite delete_middle. }
    destruct (length (array_at (splice1 a (length pre) σ) a) =? 0); simpl; [|done].
    split; [done|]. exact Hsp.
  - exfalso. eapply off_scan_None; [exact Hscan| |by apply list_lookup_middle].
    rewrite length_app. simpl. lia.
Qed.

(** ** The invariant of the listener map *)

Lemma off_last_listener eventName callback σ :
  wf σ →
  callbacks_of σ eventName = [callback] →
  (off eventName callback σ).1 = true ∧
  _eventMap (off eventName callback σ).2 !! eventName = None.
Proof.
  intros [Hne _] Hcs. unfold callbacks_of in Hcs.
  destruct (_eventMap σ !! eventName) as [a|] eqn:He; [|done].
  destruct (Hne _ _ He) as (cs & Ha & _).
  rewrite (array_at_lookup _ _ _ Ha) in Hcs. subst cs.
  unfold off. rewrite He, (array_at_lookup _ _ _ Ha). simpl.
  rewrite bool_decide_true by done.
  assert (array_at (splice1 a 0 σ) a = []) as ->.
  { unfold array_at, splice1; simpl.
    by rewrite list_lookup_alter, decide_True, Ha by done. }
  simpl. split; [done|]. apply lookup_delete_eq.
Qed.

Lemma reachable_wf code σ : reachable code σ → wf σ.
Proof.
  induction 1 as [|σ e l _ IH|σ e l _ IH|σ fuel e d _ IH].
  - exact wf_new_dispatcher.
  - by apply on_wf.
  - by apply off_wf.
  - by apply trigger_wf.
Qed.

(** C3. The listener map never holds an event name with an empty
    sequence: no state a dispatcher can reach has one. The invariant [wf]
    (no empty sequence, no array shared by two names) holds of a new
    dispatcher and is kept by [on], by [off] and by [trigger], whatever
    the listeners called by [trigger] do to the dispatcher and however the
    call ends. When [off] removes the only listener of an event the entry
    is deleted, and a later [trigger] of that event is the zero-listener
    case: it returns [false], calls nothing and changes nothing. *)
Theorem no_empty_sequence_invariant code :
  (∀ σ, reachable code σ → no_empty_sequence σ)
  ∧ wf new_dispatcher
  ∧ (∀ σ, wf σ → no_empty_sequence σ)
  ∧ (∀ σ eventName callback, wf σ → wf (on eventName callback σ))
  ∧ (∀ σ eventName callback, wf σ → wf (off eventName callback σ).2)
  ∧ (∀ σ fuel eventName details,
       wf σ → wf (final (trigger code fuel eventName details σ)))
  ∧ (∀ σ eventName callback,
       wf σ → callbacks_of σ eventName = [callback] →
       let σ' := (off eventName callback σ).2 in
       (off eventName callback σ).1 = true
       ∧ _eventMap σ' !! eventName = None
       ∧ ∀ fuel details,
           trigger code fuel eventName details σ' =
           Outcome (Returns (JBool false)) σ' []).
Proof.
  split; [intros σ Hr; by apply (reachable_wf code)|].
  split; [exact wf_new_dispatcher|].
  split; [by intros σ [H _]|].
  split; [intros; by apply on_wf|].
  split; [intros; by apply off_wf|].
  split; [intros; by apply trigger_wf|].
  intros σ eventName callback Hwf Hcs σ'.
  destruct (off_last_listener eventName callback σ Hwf Hcs) as [Hret Hgone].
  split; [done|]. split; [done|].
  intros fuel details. by apply trigger_no_entry.
Qed.

Lemma no_empty_sequence_invariant_witness :
  let code := λ (_ : listener) (_ : value), POff "update" 7 (λ _, PReturn) in
  let σ := on "update" 7 new_dispatcher in
  wf σ
  ∧ wf (final (trigger code 4 "update" JNull σ))
  ∧ _eventMap (off "update" 7 σ).2 !! "update"%string = None.
Proof.
  intros code σ.
  destruct (no_empty_sequence_invariant code) as (_ & Hnew & _ & Hon & _ & Htrig & Hoff).
  assert (Hσ : wf σ) by apply Hon, Hnew.
  split; [exact Hσ|]. split; [by apply Htrig|].
  apply (Hoff σ "update"%string 7 Hσ). reflexivity.
Defined.

(** ** Registration order *)






(** What the two theorems above leave to the listeners. A listener that
    throws ends the loop: the exception leaves [trigger] and the listeners
    after it are not called. *)
Lemma trigger_listener_throws code fuel eventName a callback rest details v σ :
  _eventMap σ !! eventName = Some a →
  array_at σ a = callback :: rest →
  code callback details = PThrow v →
  trigger code (S fuel) eventName details σ =
  Outcome (Throws v) σ [Call callback details].
Proof.
  intros He Ha Hc. unfold trigger, trigger_with. rewrite He. simpl.
  rewrite Ha. simpl. by rewrite Hc.
Qed.

(** A listener that removes itself moves its successor into the position
    the loop has already passed: the successor is skipped in this call and
    stays registered. *)
Example trigger_self_removing_listener :
  let code := λ (l : listener) (_ : value),
    if Nat.eqb l 7 then POff "update" 7 (λ _, PReturn) else PReturn in
  let σ := on "update" 8 (on "update" 7 new_dispatcher) in
  let o := trigger code 5 "update" JNull σ in
  result o = Returns JUndefined
  ∧ trace o = [Call 7 JNull]
  ∧ callbacks_of (final o) "update" = [8].
Proof. by repeat split. Qed.

(** ** The router *)

(** A value whose properties can be read at all can be read at any name. *)
Lemma get_member_total v key1 key2 x :
  get_member v key1 = Returns x → ∃ y, get_member v key2 = Returns y.
Proof. destruct v; simpl; intros H; try discriminate; eauto. Qed.

(** The handler table has exactly the two keys. *)
Lemma handler_for_None action :
  action ≠ JStr "getUrl" → action ≠ JStr "optionsUpdate" →
  handler_for action = None.
Proof.
  intros H1 H2. destruct action as [| | | |s| | | |]; try done.
  unfold handler_for, _messageHandlers. simpl.
  rewrite !lookup_insert_ne by congruence. apply lookup_empty.
Qed.

Lemma handler_for_Some action h :
  handler_for action = Some h →
  action = JStr "getUrl" ∨ action = JStr "optionsUpdate".
Proof.
  destruct action as [| | | |s| | | |]; try done. intros H.
  destruct (decide (s = "getUrl"%string)) as [->|H1]; [by left|].
  destruct (decide (s = "optionsUpdate"%string)) as [->|H2]; [by right|].
  rewrite handler_for_None in H by congruence. done.
Qed.

(** C5. A message whose [action] is not a key of the handler table (any
    value but the strings "getUrl" and "optionsUpdate") is left
    unhandled: [_onMessage] returns [false] without raising, the reply
    callback is not called (nothing is observed), and the dispatcher,
    its listener map included, is unchanged. *)
Theorem unknown_action_unhandled code href fuel message sender action σ :
  get_member message "action" = Returns action →
  action ≠ JStr "getUrl" → action ≠ JStr "optionsUpdate" →
  _onMessage code href fuel message sender σ =
  Outcome (Returns (JBool false)) σ [].
Proof.
  intros Ha H1 H2. unfold _onMessage.
  destruct (get_member_total _ _ "params" _ Ha) as [params Hp].
  rewrite Ha, Hp. unfold and_then, lift; simpl.
  by rewrite handler_for_None.
Qed.

Lemma unknown_action_unhandled_witness :
  let code := λ (_ : listener) (_ : value), PReturn in
  let message := JObject false [("action"%string, JStr "doesNotExist");
                                ("params"%string, JObject false [])] in
  let σ := on "optionsUpdate" 7 new_dispatcher in
  _onMessage code "moz-extension://id/bg/background.html" 3 message JNull σ =
  Outcome (Returns (JBool false)) σ [].
Proof.
  intros code message σ.
  apply (unknown_action_unhandled code _ 3 message JNull (JStr "doesNotExist") σ).
  - reflexivity.
  - discriminate.
  - discriminate.
Defined.

(** X12. A "getUrl" message is answered with [{url}], the location of
    this context: the reply callback is called once with it, no listener
    is called and the dispatcher is unchanged. *)
Lemma getUrl_message code href fuel message sender σ :
  get_member message "action" = Returns (JStr "getUrl") →
  _onMessage code href fuel message sender σ =
  Outcome (Returns (JBool false)) σ
    [Reply (JObject false [("url"%string, JStr href)])].
Proof.
  intros Ha. unfold _onMessage.
  destruct (get_member_total _ _ "params" _ Ha) as [params Hp].
  by rewrite Ha, Hp.
Qed.

(** On an 'optionsUpdate' message the router runs the local [trigger] and
    then, when that returns, calls the reply callback with [undefined]. *)
Lemma onMessage_optionsUpdate code href fuel message sender params source σ :
  get_member message "action" = Returns (JStr "optionsUpdate") →
  get_member message "params" = Returns params →
  get_member params "source" = Returns source →
  _onMessage code href fuel message sender σ =
    and_then (trigger code fuel "optionsUpdate" (JObject false [("source"%string, source)]) σ)
      (λ _ σ', Outcome (Returns (JBool false)) σ' [Reply JUndefined]).
Proof.
  intros Ha Hp Hs.
  unfold _onMessage, and_then, lift. rewrite Ha, Hp. cbn [result final trace].
  change (handler_for (JStr "optionsUpdate")) with (Some OnMessageOptionsUpdate).
  cbn [call_handler]. unfold _onMessageOptionsUpdate, and_then, lift. rewrite Hs.
  cbn [result final trace].
  destruct (trigger code fuel "optionsUpdate" _ σ) as [[r|v|] σ' t];
    unfold after; simpl; by rewrite ?app_nil_r.
Qed.

(** The claim in its wide reading fails for listeners that do not simply
    return. With a listener 7 that removes itself and a listener 8 after
    it, the message makes the router call 7 and then the reply callback:
    8 has moved into the position the loop has passed, and is not called
    although it is registered, before the message and after it. A
    listener that throws ends the relay before the others and before the
    reply. *)
Lemma optionsUpdate_message_counterexample :
  let params := JObject false [("source"%string, JStr "S")] in
  let message := JObject false [("action"%string, JStr "optionsUpdate");
                                ("params"%string, params)] in
  let σ := on "optionsUpdate" 8 (on "optionsUpdate" 7 new_dispatcher) in
  ¬ notifies_all_before_reply
      (λ l _, if Nat.eqb l 7 then POff "optionsUpdate" 7 (λ _, PReturn) else PReturn)
      "" message JNull (JStr "S") σ
  ∧ ¬ notifies_all_before_reply
        (λ l _, if Nat.eqb l 7 then PThrow (JStr "boom") else PReturn)
        "" message JNull (JStr "S") σ.
Proof.
  intros params message σ.
  assert (Hreg : 8 ∈ callbacks_of σ "optionsUpdate") by (vm_compute; right; left).
  split; intros [fuel0 H];
    destruct (H (fuel0 + 5) ltac:(lia) 8 Hreg) as (pre & mid & r & Ht);
    rewrite (onMessage_optionsUpdate _ _ _ message JNull params (JStr "S") σ
               eq_refl eq_refl eq_refl) in Ht;
    rewrite (trigger_more_fuel _ 5 (fuel0 + 5)) in Ht by (lia || by vm_compute);
    match type of Ht with
    | trace ?o = ?r =>
        assert (Hin : Call 8 params ∈ trace o)
          by (rewrite Ht; apply elem_of_app; right; left)
    end;
    vm_compute in Hin;
    repeat (apply elem_of_cons in Hin as [Heq|Hin]; try discriminate);
    by apply elem_of_nil in Hin.
Qed.

(** C6, amended. For a message with action "optionsUpdate" and parameters
    [{source}], [_onMessage] is the local [trigger('optionsUpdate',
    {source})] followed, when that returns, by one call of the reply
    callback with the handler's result, [undefined]. With quiet listeners
    (their bodies return normally without registering, removing or
    triggering on the dispatcher) every listener registered for
    "optionsUpdate" is called with [{source}], in order, and the reply
    comes last. *)
Theorem optionsUpdate_message code href fuel message sender params source σ :
  get_member message "action" = Returns (JStr "optionsUpdate") →
  get_member message "params" = Returns params →
  get_member params "source" = Returns source →
  let payload := JObject false [("source"%string, source)] in
  _onMessage code href fuel message sender σ =
    and_then (trigger code fuel "optionsUpdate" payload σ)
      (λ _ σ', Outcome (Returns (JBool false)) σ' [Reply JUndefined])
  ∧ (Forall (quiet code payload) (callbacks_of σ "optionsUpdate") →
     length (callbacks_of σ "optionsUpdate") < fuel →
     _onMessage code href fuel message sender σ =
       Outcome (Returns (JBool false)) σ
         (calls_of payload (callbacks_of σ "optionsUpdate") ++ [Reply JUndefined])).
Proof.
  intros Ha Hp Hs payload.
  pose proof (onMessage_optionsUpdate code href fuel message sender params source σ
                Ha Hp Hs) as Heq.
  fold payload in Heq.
  split; [exact Heq|].
  intros Hq Hfuel. rewrite Heq.
  destruct (_eventMap σ !! "optionsUpdate"%string) as [a|] eqn:He.
  - by rewrite (trigger_quiet code fuel _ a payload σ He Hq Hfuel).
  - rewrite trigger_no_entry by done.
    unfold callbacks_of. by rewrite He.
Qed.

Lemma optionsUpdate_message_witness :
  let code := λ (_ : listener) (_ : value), PReturn in
  let params := JObject false [("source"%string, JStr "S")] in
  let message := JObject false [("action"%string, JStr "optionsUpdate");
                                ("params"%string, params)] in
  let σ := on "optionsUpdate" 8 (on "optionsUpdate" 7 new_dispatcher) in
  _onMessage code "moz-extension://id/bg/background.html" 3 message JNull σ =
  Outcome (Returns (JBool false)) σ [Call 7 params; Call 8 params; Reply JUndefined].
Proof.
  intros code params message σ.
  refine (proj2 (optionsUpdate_message code _ 3 message JNull params (JStr "S") σ
                   eq_refl eq_refl eq_refl) _ _).
  - repeat constructor.
  - vm_compute. lia.
Defined.

(** ** Error envelopes *)

(** The round trip keeps [name] and [stack] whatever they are; [message]
    is kept when it is a string. *)
Lemma round_trip_string_message captured_stack e name message stack :
  get_member e "name" = Returns name →
  get_member e "message" = Returns (JStr message) →
  get_member e "stack" = Returns stack →
  round_trip captured_stack e =
  Returns (JObject false [("name"%string, name);
                          ("message"%string, JStr message);
                          ("stack"%string, stack)])
  ∧ errorToJson e = round_trip captured_stack e.
Proof.
  intros Hn Hm Hs. unfold round_trip, errorToJson. rewrite Hn, Hm, Hs. simpl.
  split; reflexivity.
Qed.

(** C7. For an error-like value whose [name], [message] and [stack] are
    populated with strings, serialising, rebuilding and serialising again
    gives the triple the first serialisation gives. *)
Theorem errorToJson_round_trip captured_stack e :
  populated e →
  round_trip captured_stack e = errorToJson e
  ∧ ∃ name message stack : string,
      errorToJson e = Returns (JObject false [("name"%string, JStr name);
                                              ("message"%string, JStr message);
                                              ("stack"%string, JStr stack)]).
Proof.
  intros (name & message & stack & Hn & Hm & Hs).
  destruct (round_trip_string_message captured_stack e _ _ _ Hn Hm Hs) as [Hrt Heq].
  split; [done|].
  exists name, message, stack. by rewrite Heq.
Qed.

Lemma errorToJson_round_trip_witness :
  let e := JError [("message"%string, JStr "Dictionary not found");
                   ("stack"%string, JStr "Error: Dictionary not found at find (db.js:10)")] in
  round_trip "at jsonToError (core.js:64)" e = errorToJson e.
Proof.
  intros e.
  refine (proj1 (errorToJson_round_trip "at jsonToError (core.js:64)" e _)).
  exists "Error"%string, "Dictionary not found"%string,
    "Error: Dictionary not found at find (db.js:10)"%string.
  repeat split; reflexivity.
Defined.

(** Outside the envelope's type the message is not kept: a number comes
    back as its decimal string, and a missing message as the empty
    string. *)
Lemma round_trip_other_messages :
  let e1 := JObject false [("name"%string, JStr "E");
                           ("message"%string, JNum (Fin 42));
                           ("stack"%string, JStr "s")] in
  let e2 := JObject false [("name"%string, JStr "E"); ("stack"%string, JStr "s")] in
  round_trip "" e1 = Returns (JObject false [("name"%string, JStr "E");
                                             ("message"%string, JStr "42");
                                             ("stack"%string, JStr "s")])
  ∧ round_trip "" e2 = Returns (JObject false [("name"%string, JStr "E");
                                               ("message"%string, JStr "");
                                               ("stack"%string, JStr "s")]).
Proof. split; reflexivity. Qed.

(** ** promiseTimeout *)

(** C8. With a delay that is not positive the early return hands out a
    plain resolved promise: it has neither [resolve] nor [reject], and a
    holder who calls one of them gets a TypeError. The other path sets
    both ([promiseTimeout_positive_delay]). *)
Theorem promiseTimeout_nonpositive_delay delay resolveValue v :
  le_zero delay = true →
  let p := promiseTimeout delay resolveValue in
  state p = Fulfilled resolveValue
  ∧ props p = []
  ∧ call_property "resolve" v p = Throws type_error
  ∧ call_property "reject" v p = Throws type_error.
Proof.
  intros Hd p. unfold p, promiseTimeout. rewrite Hd. by repeat split.
Qed.

Lemma promiseTimeout_nonpositive_delay_witness :
  let p := promiseTimeout (Fin 0) (JBool true) in
  props p = [] ∧ call_property "resolve" (JBool false) p = Throws type_error.
Proof.
  intros p.
  destruct (promiseTimeout_nonpositive_delay (Fin 0) (JBool true) (JBool false) eq_refl)
    as (_ & Hprops & Hres & _).
  split; [exact Hprops|exact Hres].
Defined.

(** X17. With a positive delay the promise is pending and carries both
    operations. An early [resolve] cancels the timer and fulfils the
    promise with the given value, unless that value is a thenable, which
    the promise then follows while it stays pending; an early [reject]
    cancels the timer and rejects the promise with the given value, a
    thenable or not; and the timer alone resolves the promise with
    [resolveValue] in the same way as [resolve] does. *)
Lemma promiseTimeout_positive_delay delay resolveValue v :
  le_zero delay = false →
  let p := promiseTimeout delay resolveValue in
  state p = Pending ∧ follows p = None ∧ timer p = Some delay
  ∧ (∃ p', call_property "resolve" v p = Returns p'
           ∧ resolved_with v p' ∧ timer p' = None ∧ timer_fires p' = p')
  ∧ (∃ p', call_property "reject" v p = Returns p'
           ∧ state p' = Rejected v ∧ follows p' = None
           ∧ timer p' = None ∧ timer_fires p' = p')
  ∧ resolved_with resolveValue (timer_fires p).
Proof.
  intros Hd p. unfold p, promiseTimeout. rewrite Hd.
  split; [done|]. split; [done|]. split; [done|]. split; [|split].
  - eexists. split; [done|]. unfold resolved_with. simpl.
    by destruct (thenable v).
  - eexists. by repeat split.
  - unfold resolved_with. simpl. by destruct (thenable resolveValue).
Qed.

(** ** toIterable *)

Lemma get_index_object_like v i :
  typeof v = "object"%string → v ≠ JNull →
  get_index v i = Returns (index_value v i).
Proof. unfold index_value. by destruct v. Qed.

(** The copy loop appends [value[i]], ..., [value[i + todo - 1]], as long
    as the array stays within its maximal length. *)
Lemma copy_indices_spec v i todo array :
  (∀ j, get_index v j = Returns (index_value v j)) →
  (Z.of_nat (length array + todo) ≤ max_array_length)%Z →
  copy_indices v i todo array = Returns (array ++ map (index_value v) (seq i todo)).
Proof.
  intros Hget. revert i array.
  induction todo as [|todo IH]; intros i array Hmax; simpl.
  - by rewrite app_nil_r.
  - rewrite Hget. simpl. unfold array_push.
    destruct (Z.ltb_spec (Z.of_nat (length array)) max_array_length) as [_|Hge]; [|lia].
    simpl. rewrite IH.
    + by rewrite <- app_assoc.
    + rewrite length_app. simpl. lia.
Qed.

(** Past the maximal length, the loop ends in the RangeError of [push]. *)
Lemma copy_indices_overflow v i todo array :
  (∀ j, get_index v j = Returns (index_value v j)) →
  (Z.of_nat (length array) ≤ max_array_length)%Z →
  (max_array_length < Z.of_nat (length array + todo))%Z →
  copy_indices v i todo array = Throws range_error.
Proof.
  intros Hget. revert i array.
  induction todo as [|todo IH]; intros i array Hle Hmax; simpl.
  - lia.
  - rewrite Hget. simpl. unfold array_push.
    destruct (Z.ltb_spec (Z.of_nat (length array)) max_array_length) as [Hlt|Hge]; [|done].
    simpl. apply IH; rewrite length_app; simpl; lia.
Qed.

(** An array the loop returns is within the maximal length. *)
Lemma copy_indices_length v i todo array r :
  copy_indices v i todo array = Returns r →
  (Z.of_nat (length array) ≤ max_array_length)%Z →
  (Z.of_nat (length r) ≤ max_array_length)%Z.
Proof.
  revert i array.
  induction todo as [|todo IH]; intros i array Hr Hle; simpl in Hr.
  - injection Hr as <-. exact Hle.
  - destruct (get_index v i) as [x| |]; [simpl in Hr|done..].
    unfold array_push in Hr.
    destruct (Z.ltb_spec (Z.of_nat (length array)) max_array_length) as [Hlt|Hge]; [|done].
    simpl in Hr. apply (IH _ _ Hr). rewrite length_app. simpl. lia.
Qed.

Lemma not_natively_iterable has_Symbol v :
  v ≠ JUndefined → v ≠ JNull →
  ¬ natively_iterable has_Symbol v →
  (if has_Symbol then get_iterator v else Returns false) = Returns false.
Proof.
  unfold natively_iterable. intros Hu Hn Hnot.
  destruct has_Symbol; [|done].
  destruct v as [| | | | | |iter ?| |]; try done.
  - exfalso. by apply Hnot.
  - exfalso. by apply Hnot.
  - destruct iter; [|done]. exfalso. by apply Hnot.
Qed.

(** The claim in its wide reading fails twice where [Symbol] exists. A
    function has a finite numeric [length], yet is refused, because only
    values of type 'object' are copied. And [null] raises the TypeError of
    the property read, not the conversion error. *)
Lemma toIterable_counterexample :
  ¬ converts_or_fails "" true (JFunction 2 "function (a, b) {}")
  ∧ ¬ converts_or_fails "" true JNull.
Proof.
  split.
  - intros [_ H]. destruct H as [r Hr]; [|discriminate].
    right. by exists (Fin 2).
  - intros [H _]. unfold natively_iterable, array_like, finite_length in H.
    simpl in H. assert (Hthrow : @Throws value type_error = Throws (could_not_convert "")).
    { apply H.
      - by intros [_ ?].
      - by intros [n [? _]]. }
    discriminate.
Qed.

(** C9, amended. Leaving aside [undefined] and [null] where [Symbol]
    exists: a natively iterable input is returned as it is; an input that
    is not, but is a non-null value of type 'object' whose length is a
    finite number, gives a new array of its elements at the indices
    0, 1, 2, ... below the length (three of them for a length of 2.5,
    none for a length of zero or less) when these are at most 2^32 - 1,
    and the RangeError of the push that passes the maximal array length
    when they are more; every other input raises the error "Could not
    convert to iterable". *)
Theorem toIterable_cases captured_stack has_Symbol v :
  (has_Symbol = true → v ≠ JUndefined ∧ v ≠ JNull) →
  (natively_iterable has_Symbol v →
   toIterable captured_stack has_Symbol v = Returns v)
  ∧ (¬ natively_iterable has_Symbol v →
     ∀ length, object_like v → finite_length v length →
     ((Z.of_nat (indices_below length) ≤ max_array_length)%Z →
      toIterable captured_stack has_Symbol v =
      Returns (JArray (map (index_value v) (seq 0 (indices_below length)))))
     ∧ ((max_array_length < Z.of_nat (indices_below length))%Z →
        toIterable captured_stack has_Symbol v = Throws range_error))
  ∧ (¬ natively_iterable has_Symbol v →
     ¬ (object_like v ∧ array_like v) →
     toIterable captured_stack has_Symbol v =
     Throws (could_not_convert captured_stack)).
Proof.
  intros Hdef.
  assert (Hiter : ¬ natively_iterable has_Symbol v →
            (if has_Symbol then get_iterator v else Returns false) = Returns false).
  { intros Hnot. destruct has_Symbol; [|done].
    destruct (Hdef eq_refl). by apply (not_natively_iterable true). }
  split; [|split].
  - intros [-> Hit]. unfold toIterable. by rewrite Hit.
  - intros Hnot len [Hnull Hobj] [Hlen Hfin].
    assert (Hstart : toIterable captured_stack has_Symbol v =
              (array ← copy_indices v 0 (indices_below len) []; Returns (JArray array))).
    { unfold toIterable. rewrite (Hiter Hnot). simpl.
      assert ((negb match v with JNull => true | _ => false end
               && String.eqb (typeof v) "object") = true) as ->.
      { rewrite Hobj. by destruct v. }
      rewrite Hlen. simpl. by rewrite Hfin. }
    rewrite Hstart. split; intros Hmax.
    + rewrite copy_indices_spec; [done| |done].
      intros j. by apply get_index_object_like.
    + rewrite copy_indices_overflow; [done| | |done].
      * intros j. by apply get_index_object_like.
      * by vm_compute.
  - intros Hnot Hno. unfold toIterable. rewrite (Hiter Hnot). simpl.
    destruct (negb match v with JNull => true | _ => false end
              && String.eqb (typeof v) "object") eqn:Hguard; [|done].
    apply andb_prop in Hguard as [Hnull Hobj].
    apply String.eqb_eq in Hobj.
    assert (Hol : object_like v).
    { split; [|done]. intros ->. discriminate. }
    destruct (get_member v "length") as [len| |] eqn:Hlen; simpl.
    + destruct len as [| | |n| | | | |]; try done.
      destruct (is_finite n) eqn:Hfin; [|done].
      exfalso. apply Hno. split; [done|]. by exists n.
    + by destruct v.
    + by destruct v.
Qed.

Lemma toIterable_cases_witness :
  let v := JObject false [("length"%string, JNum (NonInt 2 "2.5"));
                          ("0"%string, JStr "a"); ("1"%string, JStr "b")] in
  toIterable "" true v = Returns (JArray [JStr "a"; JStr "b"; JUndefined]).
Proof.
  intros v.
  assert (Hdef : true = true → v ≠ JUndefined ∧ v ≠ JNull) by (intros _; split; discriminate).
  destruct (toIterable_cases "" true v Hdef) as (_ & Hcopy & _).
  apply (Hcopy) with (length := NonInt 2 "2.5").
  - intros [_ Hit]. discriminate Hit.
  - split; [discriminate|reflexivity].
  - split; reflexivity.
  - by vm_compute.
Defined.

(** ** stringReplaceAsync *)

Lemma exec_from_no_match R str i todo :
  (∀ j, i ≤ j < i + todo → matcher R str j = None) →
  exec_from R str i todo = None.
Proof.
  revert i. induction todo as [|todo IH]; intros i Hnone; simpl; [done|].
  rewrite Hnone by lia. destruct (sticky R); [done|].
  apply IH. intros j Hj. apply Hnone. lia.
Qed.

(** An expression that matches nowhere gives [null], from wherever its
    [lastIndex] stands. *)
Lemma exec_no_match R str :
  no_match R str →
  exec R str = (None, if global R || sticky R then set_lastIndex R 0 else R).
Proof.
  intros Hno. unfold exec. rewrite exec_from_no_match; [done|].
  intros j Hj. apply Hno. lia.
Qed.

(** When the first [exec] gives [null] the loop ends at once with no part
    and no call. *)
Lemma stringReplaceAsync_first_exec_null replacer fuel str regex :
  0 < fuel →
  (exec regex str).1 = None →
  stringReplaceAsync replacer fuel str regex =
  Returns {| promise := Fulfilled (JStr str); calls := [];
             regex_after := (exec regex str).2 |}.
Proof.
  intros Hfuel Hnull. destruct fuel as [|fuel]; [lia|].
  unfold stringReplaceAsync. simpl.
  destruct (exec regex str) as [[m|] regex']; [done|]. done.
Qed.

(** C10. When the expression matches nowhere in [str],
    [stringReplaceAsync] returns a promise resolved with [str] itself and
    never calls [replacer]. *)
Theorem stringReplaceAsync_no_match replacer fuel str regex :
  0 < fuel →
  no_match regex str →
  stringReplaceAsync replacer fuel str regex =
  Returns {| promise := Fulfilled (JStr str); calls := [];
             regex_after := if global regex || sticky regex
                            then set_lastIndex regex 0 else regex |}.
Proof.
  intros Hfuel Hno.
  rewrite stringReplaceAsync_first_exec_null by (done || by rewrite exec_no_match).
  by rewrite exec_no_match.
Qed.

Lemma stringReplaceAsync_no_match_witness :
  let regex := {| matcher := literal "{{"; global := true; sticky := false;
                  lastIndex := 0 |} in
  let replacer := λ _ : list value, Fulfilled (JStr "x") in
  stringReplaceAsync replacer 1 "abc" regex =
  Returns {| promise := Fulfilled (JStr "abc"); calls := []; regex_after := regex |}.
Proof.
  intros regex replacer.
  apply (stringReplaceAsync_no_match replacer 1 "abc" regex).
  - lia.
  - intros i Hi. simpl in Hi.
    destruct i as [|[|[|[|i]]]]; [reflexivity..|lia].
Defined.

(** With matches, the parts between them and the replacements are joined
    in match order. *)
Example stringReplaceAsync_two_matches :
  let regex := {| matcher := literal "ab"; global := true; sticky := false;
                  lastIndex := 0 |} in
  let replacer := λ args : list value,
    match args with
    | [_; JNum (Fin 1); _] => Fulfilled (JStr "X")
    | _ => Fulfilled (JStr "Y")
    end in
  (λ r, (promise r, calls r)) <$>
    (match stringReplaceAsync replacer 5 "cabdabe" regex with
     | Returns r => Some r
     | _ => None
     end) =
  Some (Fulfilled (JStr "cXdYe"),
        [[JStr "ab"; JNum (Fin 1); JStr "cabdabe"];
         [JStr "ab"; JNum (Fin 4); JStr "cabdabe"]]).
Proof. reflexivity. Qed.

(** * Further properties of the code *)

(** ** Extension information *)

Lemma has_object_global x :
  String.eqb (typeof_global x) "object" && negb (is_null x) = true →
  ∃ v, x = Some v ∧ typeof v = "object"%string ∧ v ≠ JNull.
Proof.
  intros H. apply andb_prop in H as [Ht Hn].
  apply String.eqb_eq in Ht.
  destruct x as [v|]; [|done].
  exists v. split; [done|]. split; [done|].
  intros ->. done.
Qed.

Lemma get_member_object v key :
  typeof v = "object"%string → v ≠ JNull →
  ∃ x, get_member v key = Returns x.
Proof. destruct v; simpl; intros; try done; eauto. Qed.

(** X1. Computing [EXTENSION_IS_BROWSER_EDGE] never raises, whatever the two
    globals are: [chrome.runtime] and [browser.runtime] are read only
    behind the checks that the global is a non-null object. When the
    constant is true, [browser] is a non-null object. *)
Theorem edge_detection_never_raises g :
  ∃ edge, EXTENSION_IS_BROWSER_EDGE g = Returns edge
          ∧ (edge = true → ∃ b, browser g = Some b
                                ∧ typeof b = "object"%string ∧ b ≠ JNull).
Proof.
  unfold EXTENSION_IS_BROWSER_EDGE.
  destruct (_extensionHasBrowser g) eqn:Hb; [|by exists false].
  destruct (has_object_global _ Hb) as (b & Hbe & Hbt & Hbn).
  destruct (_extensionHasChrome g) eqn:Hc; simpl; [|exists true; eauto].
  destruct (has_object_global _ Hc) as (c & Hce & Hct & Hcn).
  rewrite Hce. simpl.
  destruct (get_member_object c "runtime" Hct Hcn) as [rc ->]. simpl.
  destruct (String.eqb (typeof rc) "undefined"); [|by exists false].
  rewrite Hbe. simpl.
  destruct (get_member_object b "runtime" Hbt Hbn) as [rb ->]. simpl.
  eexists. split; [done|]. eauto.
Qed.

Lemma typeof_undefined r : String.eqb (typeof r) "undefined" = true ↔ r = JUndefined.
Proof. destruct r; simpl; split; intros; done. Qed.

(** X2. After the top of the file has run, [chrome] is a non-null object
    with a defined [runtime] whenever [chrome] or [browser] was one
    before. The Edge shim supplies what [chrome] lacks and never replaces
    a usable [chrome]: [browser] is left as it was, [chrome] is what it
    was or what [browser] is, and when [chrome] had a defined [runtime]
    before, nothing changes at all. *)
Theorem shim_provides_runtime g :
  has_runtime (chrome g) ∨ has_runtime (browser g) →
  ∃ g', load_extension_information g = Returns g'
        ∧ has_runtime (chrome g')
        ∧ browser g' = browser g
        ∧ (chrome g' = chrome g ∨ chrome g' = browser g)
        ∧ (has_runtime (chrome g) → g' = g).
Proof.
  intros Hrun. unfold load_extension_information, EXTENSION_IS_BROWSER_EDGE.
  destruct (_extensionHasBrowser g) eqn:Hb.
  - destruct (has_object_global _ Hb) as (b & Hbe & Hbt & Hbn).
    destruct (_extensionHasChrome g) eqn:Hc; simpl.
    + destruct (has_object_global _ Hc) as (c & Hce & Hct & Hcn).
      rewrite Hce. simpl.
      destruct (get_member_object c "runtime" Hct Hcn) as [rc Hrc]. rewrite Hrc. simpl.
      destruct (String.eqb (typeof rc) "undefined") eqn:Hu.
      * apply typeof_undefined in Hu. subst rc. rewrite Hbe. simpl.
        destruct (get_member_object b "runtime" Hbt Hbn) as [rb Hrb]. rewrite Hrb. simpl.
        assert (Hnot : ¬ has_runtime (chrome g)).
        { intros (c' & r & Hc' & _ & _ & Hr & Hne).
          rewrite Hce in Hc'. injection Hc' as <-. congruence. }
        destruct Hrun as [Hc'|(b' & r & Hb' & _ & _ & Hr & Hne)]; [done|].
        rewrite Hbe in Hb'. injection Hb' as <-.
        assert (rb = r) as -> by congruence.
        assert (String.eqb (typeof r) "undefined" = false) as ->.
        { destruct (String.eqb (typeof r) "undefined") eqn:Hr'; [|done].
          by apply typeof_undefined in Hr'. }
        simpl. eexists. split; [done|]. simpl.
        split; [by exists b, r|]. split; [done|].
        split; [by right|intros Hc'; exfalso; apply Hnot; by rewrite Hce].
      * exists g. split; [done|]. split.
        { rewrite Hce. exists c, rc. repeat split; try done. intros ->. done. }
        split; [done|]. split; [by left|done].
    + assert (Hnot : ¬ has_runtime (chrome g)).
      { intros (c' & r & Hc' & Hct & Hcn & _).
        unfold _extensionHasChrome in Hc. rewrite Hc' in Hc.
        simpl in Hc. rewrite Hct in Hc. simpl in Hc. by destruct c'. }
      destruct Hrun as [Hc'|(b' & r & Hb' & _ & _ & Hr & Hne)]; [done|].
      assert (b' = b) as -> by congruence.
      eexists. split; [done|]. simpl.
      split; [by exists b, r|]. split; [done|].
        split; [by right|intros Hc'; by destruct (Hnot Hc')].
  - simpl. exists g. split; [done|].
    split; [|split; [done|split; [by left|done]]].
    destruct Hrun as [H|(b' & r & Hb' & Hbt & Hbn & _)]; [done|].
    exfalso. unfold _extensionHasBrowser in Hb. rewrite Hb' in Hb.
    simpl in Hb. rewrite Hbt in Hb. simpl in Hb. by destruct b'.
Qed.

Lemma shim_provides_runtime_witness :
  let edge_browser := JObject false [("runtime"%string, JObject false [])] in
  let g := {| chrome := None; browser := Some edge_browser |} in
  ∃ g', load_extension_information g = Returns g'
        ∧ has_runtime (chrome g')
        ∧ browser g' = browser g
        ∧ (chrome g' = chrome g ∨ chrome g' = browser g)
        ∧ (has_runtime (chrome g) → g' = g).
Proof.
  intros edge_browser g.
  apply (shim_provides_runtime g). right.
  exists edge_browser, (JObject false []).
  repeat split; (reflexivity || discriminate).
Defined.

(** ** stringReverse *)

Lemma utf16_app ps qs : utf16 (ps ++ qs) = utf16 ps ++ utf16 qs.
Proof. unfold utf16. by rewrite map_app, concat_app. Qed.

Lemma rev_utf16 ps :
  rev (utf16 ps) = concat (map (λ p, rev (units_of p)) (rev ps)).
Proof.
  induction ps as [|p ps IH]; [done|].
  change (utf16 (p :: ps)) with (units_of p ++ utf16 ps).
  rewrite rev_app_distr, IH. simpl.
  rewrite map_app, concat_app. simpl. by rewrite app_nil_r.
Qed.

(** Reversed code points, each with its units reversed, are put right by
    the swap. *)
Lemma swap_surrogates_reversed qs :
  Forall valid_code_point qs →
  swap_surrogates (concat (map (λ p, rev (units_of p)) qs)) = utf16 qs.
Proof.
  induction 1 as [|q qs Hq _ IH]; [done|].
  change (utf16 (q :: qs)) with (units_of q ++ utf16 qs).
  destruct q as [c|h l]; cbn [map concat units_of rev app].
  - destruct Hq as [_ Hlow].
    destruct (concat (map (λ p, rev (units_of p)) qs)) as [|b t].
    + simpl in IH. simpl. by rewrite <- IH.
    + change (swap_surrogates (c :: b :: t)) with
        (if is_low c && is_high b then b :: c :: swap_surrogates t
         else c :: swap_surrogates (b :: t)).
      rewrite Hlow. cbn [andb]. by rewrite IH.
  - destruct Hq as [Hh Hl].
    change (swap_surrogates (l :: h :: concat (map (λ p, rev (units_of p)) qs))) with
      (if is_low l && is_high h
       then h :: l :: swap_surrogates (concat (map (λ p, rev (units_of p)) qs))
       else l :: swap_surrogates (h :: concat (map (λ p, rev (units_of p)) qs))).
    rewrite Hh, Hl. cbn [andb]. by rewrite IH.
Qed.

Lemma stringReverse_utf16 ps :
  Forall valid_code_point ps →
  stringReverse (utf16 ps) = utf16 (rev ps).
Proof.
  intros Hv. unfold stringReverse. rewrite rev_utf16.
  apply swap_surrogates_reversed. by apply Forall_rev.
Qed.

(** X3. On a well-formed string (every surrogate part of a high-low pair)
    [stringReverse] reverses the code points and keeps each pair intact;
    reversing twice gives the string back. *)
Theorem stringReverse_code_points ps :
  Forall valid_code_point ps →
  stringReverse (utf16 ps) = utf16 (rev ps)
  ∧ stringReverse (stringReverse (utf16 ps)) = utf16 ps.
Proof.
  intros Hv. split; [by apply stringReverse_utf16|].
  rewrite !stringReverse_utf16 by (done || by apply Forall_rev).
  by rewrite rev_involutive.
Qed.

Lemma stringReverse_code_points_witness :
  (* "a", U+1F600 (D83D DE00), "b" *)
  stringReverse [0x61; 0xD83D; 0xDE00; 0x62]%N = [0x62; 0xD83D; 0xDE00; 0x61]%N.
Proof.
  refine (proj1 (stringReverse_code_points
                   [Bmp 0x61; Astral 0xD83D 0xDE00; Bmp 0x62] _)).
  repeat constructor.
Defined.

Lemma swap_surrogates_Permutation n units :
  length units ≤ n → swap_surrogates units ≡ₚ units.
Proof.
  revert units. induction n as [|n IH]; intros units Hn.
  - destruct units; [done|simpl in Hn; lia].
  - destruct units as [|a [|b rest]]; [done|done|].
    simpl in Hn. simpl.
    destruct (is_low a && is_high b).
    + rewrite (IH rest) by lia. apply Permutation_swap.
    + apply Permutation_skip. apply (IH (b :: rest)). simpl. lia.
Qed.

(** X4. For every string, well-formed or not, [stringReverse] gives a
    rearrangement of the same code units: nothing is lost, added or
    changed, and the length is the same. *)
Theorem stringReverse_same_units units :
  stringReverse units ≡ₚ units
  ∧ length (stringReverse units) = length units.
Proof.
  assert (H : stringReverse units ≡ₚ units).
  { unfold stringReverse.
    rewrite (swap_surrogates_Permutation (length (rev units))) by done.
    symmetry. apply Permutation_rev. }
  split; [done|]. by rewrite H.
Qed.

(** ** The dispatcher as a map from event names to sequences *)

Lemma wf_array σ e a : wf σ → _eventMap σ !! e = Some a →
  ∃ cs, arrays σ !! a = Some cs ∧ cs ≠ [] ∧ callbacks_of σ e = cs.
Proof.
  intros [Hne _] He. destruct (Hne _ _ He) as (cs & Ha & Hnil).
  exists cs. split; [done|]. split; [done|].
  unfold callbacks_of. rewrite He. by apply array_at_lookup.
Qed.

Lemma on_callbacks_other eventName callback σ e' :
  wf σ → e' ≠ eventName →
  callbacks_of (on eventName callback σ) e' = callbacks_of σ e'.
Proof.
  intros Hwf Hd. unfold on, callbacks_of.
  destruct (_eventMap σ !! eventName) as [a|] eqn:He; simpl.
  - destruct (_eventMap σ !! e') as [a'|] eqn:He'; [|done].
    unfold array_at, push; simpl.
    rewrite list_lookup_alter_ne; [done|].
    intros ->. apply Hd. destruct Hwf as [_ Hinj]. by eapply Hinj.
  - rewrite lookup_insert_ne by done.
    destruct (_eventMap σ !! e') as [a'|] eqn:He'; [|done].
    destruct (wf_array _ _ _ Hwf He') as (cs & Ha' & _ & _).
    unfold array_at; simpl. rewrite alter_at_end.
    by rewrite lookup_app_l by (by eapply lookup_lt_Some).
Qed.

Lemma remove_first_absent l cs : l ∉ cs → remove_first l cs = cs.
Proof.
  induction cs as [|c cs IH]; [done|]. intros Hnotin; simpl.
  apply not_elem_of_cons in Hnotin as [Hne Hnotin].
  rewrite bool_decide_false by done. by rewrite IH.
Qed.

Lemma remove_first_delete l cs i :
  cs !! i = Some l → (∀ k, k < i → cs !! k ≠ Some l) →
  remove_first l cs = delete i cs.
Proof.
  revert i. induction cs as [|c cs IH]; intros i Hi Hfirst; [done|].
  destruct i as [|i]; simpl in *.
  - injection Hi as ->. by rewrite bool_decide_true.
  - rewrite bool_decide_false.
    + f_equal. apply IH; [done|]. intros k Hk. apply (Hfirst (S k)). lia.
    + intros ->. by apply (Hfirst 0); [lia|].
Qed.

Lemma remove_first_app_end l cs : l ∉ cs → remove_first l (cs ++ [l]) = cs.
Proof.
  induction cs as [|c cs IH]; intros Hnotin; simpl.
  - by rewrite bool_decide_true.
  - apply not_elem_of_cons in Hnotin as [Hne Hnotin].
    rewrite bool_decide_false by done. by rewrite IH.
Qed.

Lemma off_scan_absent l cs :
  off_scan l cs 0 (length cs) = None → l ∉ cs.
Proof.
  intros Hscan Hin. apply list_elem_of_lookup in Hin as [k Hk].
  eapply off_scan_None; [exact Hscan| |exact Hk].
  apply lookup_lt_Some in Hk. lia.
Qed.

(** What [off] does to every sequence. *)
Lemma off_callbacks eventName callback σ e' :
  wf σ →
  callbacks_of (off eventName callback σ).2 e' =
  if decide (e' = eventName)
  then remove_first callback (callbacks_of σ eventName)
  else callbacks_of σ e'.
Proof.
  intros Hwf. unfold off.
  destruct (_eventMap σ !! eventName) as [a|] eqn:He.
  2:{ simpl. destruct (decide (e' = eventName)) as [->|]; [|done].
      unfold callbacks_of. by rewrite He. }
  destruct (wf_array _ _ _ Hwf He) as (cs & Ha & Hnil & Hcs).
  rewrite (array_at_lookup _ _ _ Ha), Hcs.
  destruct (off_scan callback cs 0 (length cs)) as [i|] eqn:Hscan.
  2:{ simpl. destruct (decide (e' = eventName)) as [->|]; [|done].
      rewrite Hcs. symmetry. apply remove_first_absent. by apply off_scan_absent. }
  apply off_scan_Some in Hscan as (Hi & _ & Hfirst).
  rewrite (remove_first_delete _ _ i Hi) by (intros k Hk; apply Hfirst; lia).
  assert (Hat : array_at (splice1 a i σ) a = delete i cs).
  { unfold array_at, splice1; simpl.
    by rewrite list_lookup_alter, decide_True, Ha by done. }
  assert (Hother : e' ≠ eventName →
            callbacks_of (splice1 a i σ) e' = callbacks_of σ e').
  { intros Hd. unfold callbacks_of. simpl.
    destruct (_eventMap σ !! e') as [a'|] eqn:He'; [|done].
    unfold array_at; simpl. rewrite list_lookup_alter_ne; [done|].
    intros ->. apply Hd. destruct Hwf as [_ Hinj]. by eapply Hinj. }
  rewrite Hat.
  destruct (length (delete i cs) =? 0) eqn:Hlen; simpl.
  - destruct (decide (e' = eventName)) as [->|Hd].
    + unfold callbacks_of; simpl. rewrite lookup_delete_eq.
      apply Nat.eqb_eq in Hlen. by destruct (delete i cs).
    + rewrite <- (Hother Hd). unfold callbacks_of; simpl.
      by rewrite lookup_delete_ne.
  - destruct (decide (e' = eventName)) as [->|Hd]; [|by apply Hother].
    unfold callbacks_of; simpl. by rewrite He.
Qed.

(** What [off] returns. *)
Lemma off_result eventName callback σ :
  wf σ →
  (off eventName callback σ).1 =
  bool_decide (_eventMap σ !! eventName = None ∨ callback ∈ callbacks_of σ eventName).
Proof.
  intros Hwf. unfold off.
  destruct (_eventMap σ !! eventName) as [a|] eqn:He.
  2:{ symmetry. apply bool_decide_eq_true_2. by left. }
  destruct (wf_array _ _ _ Hwf He) as (cs & Ha & Hnil & Hcs).
  rewrite (array_at_lookup _ _ _ Ha), Hcs.
  destruct (off_scan callback cs 0 (length cs)) as [i|] eqn:Hscan.
  - apply off_scan_Some in Hscan as (Hi & _).
    trans true.
    + cbv zeta. by destruct (length (array_at (splice1 a i σ) a) =? 0).
    + symmetry. apply bool_decide_eq_true_2. right. by eapply list_elem_of_lookup_2.
  - simpl. symmetry. apply bool_decide_eq_false_2.
    intros [H|H]; [done|]. by apply (off_scan_absent _ _ Hscan).
Qed.

(** X5. [on(e, L)] appends [L] to the sequence of [e], after the listeners
    already there and whether or not [L] is among them, and leaves the
    sequence of every other event as it is. *)
Theorem on_appends eventName callback σ e' :
  wf σ →
  callbacks_of (on eventName callback σ) e' =
  if decide (e' = eventName)
  then callbacks_of σ eventName ++ [callback]
  else callbacks_of σ e'.
Proof.
  intros Hwf. destruct (decide (e' = eventName)) as [->|Hd].
  - by apply on_callbacks.
  - by apply on_callbacks_other.
Qed.

Lemma on_appends_witness :
  let σ := on "b" 3 (on "a" 1 new_dispatcher) in
  callbacks_of (on "a" 1 σ) "a" = [1; 1] ∧ callbacks_of (on "a" 1 σ) "b" = [3].
Proof.
  intros σ.
  assert (Hwf : wf σ) by (apply on_wf, on_wf, wf_new_dispatcher).
  split.
  - exact (on_appends "a" 1 σ "a" Hwf).
  - exact (on_appends "a" 1 σ "b" Hwf).
Defined.

(** X6. [off(e, L)] removes the first occurrence of [L] from the sequence
    of [e], keeps the order of the rest and leaves every other event as
    it is. It returns [true] when [L] was registered for [e] or [e] has no
    entry at all, and [false] when [e] has listeners and [L] is not one of
    them. *)
Theorem off_removes_first_occurrence eventName callback σ e' :
  wf σ →
  callbacks_of (off eventName callback σ).2 e' =
    (if decide (e' = eventName)
     then remove_first callback (callbacks_of σ eventName)
     else callbacks_of σ e')
  ∧ (off eventName callback σ).1 =
    bool_decide (_eventMap σ !! eventName = None
                 ∨ callback ∈ callbacks_of σ eventName).
Proof.
  intros Hwf. split; [by apply off_callbacks|by apply off_result].
Qed.

Lemma off_removes_first_occurrence_witness :
  let σ := on "a" 1 (on "a" 2 (on "a" 1 new_dispatcher)) in
  callbacks_of (off "a" 1 σ).2 "a" = [2; 1] ∧ (off "a" 1 σ).1 = true.
Proof.
  intros σ.
  assert (Hwf : wf σ) by (apply on_wf, on_wf, on_wf, wf_new_dispatcher).
  exact (off_removes_first_occurrence "a" 1 σ "a" Hwf).
Defined.

(** X7. Registering a listener that was not registered for the event and
    removing it again restores every sequence, and the removal reports
    success. *)
Theorem on_off_round_trip eventName callback σ e' :
  wf σ →
  callback ∉ callbacks_of σ eventName →
  callbacks_of (off eventName callback (on eventName callback σ)).2 e'
    = callbacks_of σ e'
  ∧ (off eventName callback (on eventName callback σ)).1 = true.
Proof.
  intros Hwf Hnotin.
  assert (Hwf' : wf (on eventName callback σ)) by by apply on_wf.
  split.
  - rewrite off_callbacks by done.
    destruct (decide (e' = eventName)) as [->|Hd].
    + rewrite on_callbacks by done. by apply remove_first_app_end.
    + by apply on_callbacks_other.
  - rewrite off_result by done. apply bool_decide_eq_true_2. right.
    rewrite on_callbacks by done. set_solver.
Qed.

Lemma on_off_round_trip_witness :
  let σ := on "a" 1 new_dispatcher in
  callbacks_of (off "b" 2 (on "b" 2 σ)).2 "b" = []
  ∧ (off "b" 2 (on "b" 2 σ)).1 = true.
Proof.
  intros σ.
  assert (Hwf : wf σ) by (apply on_wf, wf_new_dispatcher).
  apply (on_off_round_trip "b" 2 σ "b" Hwf).
  vm_compute. apply not_elem_of_nil.
Defined.

(** ** Listeners that throw or use the dispatcher *)

Lemma after_nil {A} (o : outcome A) : after [] o = o.
Proof. by destruct o. Qed.

Lemma after_after {A} pre1 pre2 (o : outcome A) :
  after pre1 (after pre2 o) = after (pre1 ++ pre2) o.
Proof. unfold after; simpl. by rewrite app_assoc. Qed.

(** The loop passes a run of quiet listeners, calling each, and goes on
    from the position after them in the same state. *)
Lemma for_of_quiet_prefix code fuel a i d σ pre :
  (∀ k l, pre !! k = Some l → array_at σ a !! (i + k) = Some l) →
  Forall (quiet code d) pre →
  for_of code (length pre + fuel) a i d σ =
  after (calls_of d pre) (for_of code fuel a (i + length pre) d σ).
Proof.
  revert i. induction pre as [|l pre IH]; intros i Hat Hq.
  - simpl. by rewrite Nat.add_0_r, after_nil.
  - apply Forall_cons in Hq as [Hl Hq]. unfold quiet in Hl.
    change (length (l :: pre) + fuel) with (S (length pre + fuel)).
    simpl. pose proof (Hat 0 l eq_refl) as H0. rewrite Nat.add_0_r in H0.
    rewrite H0, Hl. simpl.
    rewrite IH; [|intros k l' Hk; replace (S i + k) with (i + S k) by lia; by apply Hat|done].
    rewrite after_after. by replace (S i + length pre) with (i + S (length pre)) by lia.
Qed.

Lemma prefix_lookup {A} (pre post : list A) k x :
  pre !! k = Some x → (pre ++ post) !! (0 + k) = Some x.
Proof. intros H. simpl. by apply lookup_app_l_Some. Qed.



(** X9. A listener that removes itself while it runs makes the loop skip
    the listener registered right after it: that one is not called in this
    call, although it stays registered; the listeners further on are
    called as usual. *)
Theorem trigger_skips_after_self_removal
    code fuel eventName a pre callback next rest details σ :
  _eventMap σ !! eventName = Some a →
  arrays σ !! a = Some (pre ++ callback :: next :: rest) →
  Forall (quiet code details) pre →
  Forall (quiet code details) rest →
  code callback details = POff eventName callback (λ _, PReturn) →
  length pre + length rest + 1 < fuel →
  trigger code fuel eventName details σ =
    Outcome (Returns JUndefined) (off eventName callback σ).2
      (calls_of details pre ++ Call callback details :: calls_of details rest)
  ∧ callbacks_of (off eventName callback σ).2 eventName = pre ++ next :: rest.
Proof.
  intros He Ha Hpre Hrest Hc Hfuel.
  assert (Hnotin : callback ∉ pre).
  { intros Hin. rewrite Forall_forall in Hpre. specialize (Hpre _ Hin).
    unfold quiet in Hpre. congruence. }
  destruct (off_first_occurrence eventName callback a pre (next :: rest) σ He Ha Hnotin)
    as [_ Hoff].
  assert (Hmap : _eventMap (off eventName callback σ).2 !! eventName = Some a).
  { unfold off. rewrite He.
    destruct (off_scan callback (array_at σ a) 0 (length (array_at σ a))) as [i|] eqn:Hs;
      [|done].
    destruct (length (array_at (splice1 a i σ) a) =? 0) eqn:Hlen; [|done].
    exfalso. apply Nat.eqb_eq in Hlen.
    assert (i = length pre) as ->.
    { rewrite (array_at_lookup _ _ _ Ha) in Hs.
      apply off_scan_Some in Hs as (Hi & _ & Hfirst).
      destruct (Nat.lt_trichotomy i (length pre)) as [Hlt|[->|Hgt]]; [|done|].
      - rewrite lookup_app_l in Hi by done.
        exfalso. apply Hnotin. by eapply list_elem_of_lookup_2.
      - exfalso. apply (Hfirst (length pre)); [lia|].
        by rewrite list_lookup_middle. }
    unfold array_at, splice1 in Hlen; simpl in Hlen.
    rewrite list_lookup_alter, decide_True, Ha in Hlen by done. simpl in Hlen.
    rewrite delete_middle, length_app in Hlen. simpl in Hlen. lia. }
  split; [|unfold callbacks_of; by rewrite Hmap].
  unfold trigger, trigger_with. rewrite He.
  replace fuel with (length pre + S (fuel - length pre - 1)) by lia.
  rewrite for_of_quiet_prefix;
    [|intros k l Hk; rewrite (array_at_lookup _ _ _ Ha); by apply prefix_lookup|done].
  simpl. rewrite (array_at_lookup _ _ _ Ha), list_lookup_middle by done.
  rewrite Hc. simpl.
  rewrite for_of_quiet.
  - rewrite Hoff.
    replace (S (length pre)) with (length (pre ++ [next])) by (rewrite length_app; simpl; lia).
    rewrite (cons_middle next pre rest), app_assoc, drop_app_length.
    unfold after; simpl. done.
  - rewrite Hoff.
    replace (S (length pre)) with (length (pre ++ [next])) by (rewrite length_app; simpl; lia).
    by rewrite (cons_middle next pre rest), app_assoc, drop_app_length.
  - rewrite Hoff, length_app. simpl. lia.
Qed.

Lemma trigger_skips_after_self_removal_witness :
  let code := λ (l : listener) (_ : value),
    if Nat.eqb l 1 then POff "a" 1 (λ _, PReturn) else PReturn in
  let σ := on "a" 3 (on "a" 2 (on "a" 1 new_dispatcher)) in
  trigger code 5 "a" JNull σ =
    Outcome (Returns JUndefined) (off "a" 1 σ).2 [Call 1 JNull; Call 3 JNull]
  ∧ callbacks_of (off "a" 1 σ).2 "a" = [2; 3].
Proof.
  intros code σ.
  apply (trigger_skips_after_self_removal code 5 "a" 0 [] 1 2 [3] JNull σ).
  - reflexivity.
  - reflexivity.
  - constructor.
  - repeat constructor.
  - reflexivity.
  - simpl. lia.
Defined.






(** ** More on the router *)

Lemma getUrl_message_witness :
  let code := λ (_ : listener) (_ : value), PReturn in
  let message := JObject false [("action"%string, JStr "getUrl");
                                ("params"%string, JObject false [])] in
  let σ := on "optionsUpdate" 7 new_dispatcher in
  _onMessage code "https://example.org/page" 3 message JNull σ =
  Outcome (Returns (JBool false)) σ
    [Reply (JObject false [("url"%string, JStr "https://example.org/page")])].
Proof.
  intros code message σ.
  exact (getUrl_message code "https://example.org/page" 3 message JNull σ eq_refl).
Defined.

(** X13. An "optionsUpdate" message whose [params] is missing or [null]
    makes the handler raise a TypeError when it takes [source] out of it:
    the error leaves [_onMessage], no listener is called and the reply
    callback is never called. *)
Theorem optionsUpdate_without_params_raises code href fuel message sender params σ :
  get_member message "action" = Returns (JStr "optionsUpdate") →
  get_member message "params" = Returns params →
  params = JUndefined ∨ params = JNull →
  _onMessage code href fuel message sender σ = Outcome (Throws type_error) σ [].
Proof.
  intros Ha Hp Hnull. unfold _onMessage, and_then, lift. rewrite Ha, Hp.
  cbn [result final trace].
  change (handler_for (JStr "optionsUpdate")) with (Some OnMessageOptionsUpdate).
  cbn [call_handler]. unfold _onMessageOptionsUpdate, and_then, lift.
  by destruct Hnull as [-> | ->].
Qed.

Lemma optionsUpdate_without_params_raises_witness :
  let code := λ (_ : listener) (_ : value), PReturn in
  let message := JObject false [("action"%string, JStr "optionsUpdate")] in
  let σ := on "optionsUpdate" 7 new_dispatcher in
  _onMessage code "https://example.org/page" 3 message JNull σ =
  Outcome (Throws type_error) σ [].
Proof.
  intros code message σ.
  apply (optionsUpdate_without_params_raises code _ 3 message JNull JUndefined σ).
  - reflexivity.
  - reflexivity.
  - by left.
Defined.

(** X21. [triggerOrphaned(error)] calls the listeners registered for
    "orphaned", in order, each with [{error}], and returns [undefined]
    whether or not there are any; listeners of other events are not
    called and no reply is made. The listeners are quiet. *)
Theorem triggerOrphaned_notifies code fuel error σ :
  Forall (quiet code (JObject false [("error"%string, error)]))
    (callbacks_of σ "orphaned") →
  length (callbacks_of σ "orphaned") < fuel →
  triggerOrphaned code fuel error σ =
  Outcome (Returns JUndefined) σ
    (calls_of (JObject false [("error"%string, error)]) (callbacks_of σ "orphaned")).
Proof.
  intros Hq Hfuel. unfold triggerOrphaned.
  destruct (_eventMap σ !! "orphaned"%string) as [a|] eqn:He.
  - rewrite (trigger_quiet code fuel _ a _ σ He Hq Hfuel).
    unfold and_then, after; simpl. by rewrite app_nil_r.
  - rewrite trigger_no_entry by done.
    unfold callbacks_of. by rewrite He.
Qed.

Lemma triggerOrphaned_notifies_witness :
  let code := λ (_ : listener) (_ : value), PReturn in
  let σ := on "orphaned" 5 (on "optionsUpdate" 7 new_dispatcher) in
  triggerOrphaned code 2 (JStr "Extension context invalidated") σ =
  Outcome (Returns JUndefined) σ
    [Call 5 (JObject false [("error"%string, JStr "Extension context invalidated")])].
Proof.
  intros code σ.
  apply (triggerOrphaned_notifies code 2 (JStr "Extension context invalidated") σ).
  - repeat constructor.
  - vm_compute. lia.
Defined.

(** What listeners do is observed as calls of listeners only. *)
Lemma run_only_calls trig p σ :
  (∀ e d σ', Forall is_call (trace (trig e d σ'))) →
  Forall is_call (trace (run trig p σ)).
Proof.
  intros Htrig. revert σ.
  induction p as [|v|e l k IH|e l k IH|e d k IH]; intros σ; simpl; try done.
  specialize (Htrig e d σ).
  destruct (result (trig e d σ)); simpl; [| |done]; apply Forall_app; eauto.
Qed.

Lemma trigger_with_only_calls loop e d σ :
  (∀ a i d' σ', Forall is_call (trace (loop a i d' σ'))) →
  Forall is_call (trace (trigger_with loop e d σ)).
Proof.
  intros Hloop. unfold trigger_with.
  destruct (_eventMap σ !! e) as [a|]; [|done].
  specialize (Hloop a 0 d σ). by destruct (result (loop a 0 d σ)).
Qed.

Lemma for_of_only_calls code fuel a i d σ :
  Forall is_call (trace (for_of code fuel a i d σ)).
Proof.
  revert a i d σ. induction fuel as [|fuel IH]; intros a i d σ; simpl; [done|].
  destruct (array_at σ a !! i) as [callback|]; [|done].
  assert (Hrun : Forall is_call
            (trace (run (trigger_with (for_of code fuel)) (code callback d) σ))).
  { apply run_only_calls. intros e d' σ'. by apply trigger_with_only_calls. }
  destruct (result (run (trigger_with (for_of code fuel)) (code callback d) σ)); simpl.
  - apply Forall_cons. split; [done|]. apply Forall_app. eauto.
  - by apply Forall_cons.
  - by apply Forall_cons.
Qed.

(** X14. Whatever the message and the listeners, [_onMessage] calls the
    reply callback at most once, as the last thing it does, and then
    returns [false]; whenever it returns at all, it returns [false] (it
    never asks the channel to wait for a later reply). *)
Theorem onMessage_replies_at_most_once code href fuel message sender σ :
  let o := _onMessage code href fuel message sender σ in
  (∀ v, result o = Returns v → v = JBool false)
  ∧ (Forall is_call (trace o)
     ∨ ∃ before r, trace o = before ++ [Reply r]
                   ∧ Forall is_call before
                   ∧ result o = Returns (JBool false)).
Proof.
  unfold _onMessage, and_then, lift.
  destruct (get_member message "action") as [action| |]; cbn [result final trace];
    [|split; [done|by left]..].
  destruct (get_member message "params") as [params| |]; cbn [result final trace];
    [|split; [done|by left]..].
  destruct (handler_for action) as [[|]|]; cbn [call_handler].
  - split; [simpl; by intros v [= <-]|].
    right. eexists [], _. by repeat split.
  - unfold _onMessageOptionsUpdate, and_then, lift.
    destruct (get_member params "source") as [source| |]; cbn [result final trace];
      [|split; [done|by left]..].
    pose proof (trigger_with_only_calls (for_of code fuel) "optionsUpdate"
                  (JObject false [("source"%string, source)]) σ
                  (for_of_only_calls code fuel)) as Hcalls.
    fold (trigger code fuel "optionsUpdate" (JObject false [("source"%string, source)]) σ)
      in Hcalls.
    destruct (trigger code fuel "optionsUpdate" (JObject false [("source"%string, source)]) σ)
      as [[r|v|] σ' t]; simpl in *.
    + split; [by intros v [= <-]|].
      right. exists t, JUndefined. by rewrite !app_nil_r.
    + split; [done|by left].
    + split; [done|by left].
  - split; [simpl; by intros v [= <-]|]. by left.
Qed.

(** ** More on error envelopes *)

(** How integers print: in full up to 2^53, then with the shortest digits
    that give the same double, and in exponent notation from 10^21 on. *)
Example number_to_string_examples :
  number_to_string (Fin (-42)) = "-42"%string
  ∧ number_to_string (Fin (2 ^ 53 + 1)) = "9007199254740992"%string
  ∧ number_to_string (Fin (2 ^ 64)) = "18446744073709552000"%string
  ∧ number_to_string (Fin (10 ^ 21)) = "1e+21"%string
  ∧ number_to_string (Fin (2 ^ 70)) = "1.1805916207174113e+21"%string
  ∧ number_to_string (Fin (2 ^ 1024)) = "Infinity"%string
  ∧ number_to_string (NonInt 2 "2.5") = "2.5"%string.
Proof. by vm_compute. Qed.

(** X15. For every envelope other than [undefined] and [null] whose
    message is a string, a boolean, [null] or missing, [jsonToError]
    returns an error object whose [name] and [stack] are exactly the
    envelope's, also when they are missing ([name] does not fall back to
    "Error"), and whose [message] is the envelope's turned into a string,
    or the empty string when the envelope has none. *)
Theorem jsonToError_fields captured_stack jsonError message text :
  get_member jsonError "message" = Returns message →
  plain_message message = Some text →
  ∃ props name stack,
    jsonToError captured_stack jsonError = Returns (JError props)
    ∧ get_member jsonError "name" = Returns name
    ∧ get_member jsonError "stack" = Returns stack
    ∧ get_member (JError props) "name" = Returns name
    ∧ get_member (JError props) "stack" = Returns stack
    ∧ get_member (JError props) "message" = Returns (JStr text).
Proof.
  intros Hm Hplain.
  destruct (get_member_total _ _ "name" _ Hm) as [name Hn].
  destruct (get_member_total _ _ "stack" _ Hm) as [stack Hs].
  unfold jsonToError. rewrite Hm, Hn, Hs. simpl.
  unfold new_Error.
  destruct message as [| |[|]| | | | | |]; try discriminate Hplain;
    injection Hplain as <-;
    (eexists _, name, stack; simpl; by repeat split).
Qed.

Lemma jsonToError_fields_witness :
  ∃ props,
    jsonToError "at jsonToError (core.js:64)"
      (JObject false [("message"%string, JStr "x is not a function")]) =
    Returns (JError props)
    ∧ get_member (JError props) "name" = Returns JUndefined
    ∧ get_member (JError props) "message" = Returns (JStr "x is not a function").
Proof.
  destruct (jsonToError_fields "at jsonToError (core.js:64)"
              (JObject false [("message"%string, JStr "x is not a function")])
              (JStr "x is not a function") "x is not a function" eq_refl eq_refl)
    as (props & name & stack & He & Hn & _ & Hen & _ & Hem).
  exists props. split; [exact He|]. split; [|exact Hem].
  rewrite Hen. simpl in Hn. by rewrite <- Hn.
Defined.

(** ** More on toIterable *)

Lemma map_lookup_seq (elems : list value) :
  map (index_value (JArray elems)) (seq 0 (length elems)) = elems.
Proof.
  apply list_eq. intros i.
  change (map (index_value (JArray elems)) (seq 0 (length elems)))
    with (index_value (JArray elems) <$> seq 0 (length elems)).
  rewrite list_lookup_fmap.
  destruct (decide (i < length elems)) as [Hlt|Hge].
  - rewrite lookup_seq_lt by done. simpl.
    unfold index_value; simpl.
    destruct (lookup_lt_is_Some_2 elems i Hlt) as [x Hx]. by rewrite Hx.
  - rewrite lookup_seq_ge by lia. simpl.
    symmetry. apply lookup_ge_None. lia.
Qed.

(** The length of an array is a finite number. *)
Lemma array_length_finite z :
  (0 ≤ z ≤ max_array_length)%Z → is_finite (Fin z) = true.
Proof.
  intros Hz. unfold is_finite, overflows, nearest_double.
  rewrite Z.abs_eq by lia.
  pose proof (Z.log2_le_mono z max_array_length ltac:(lia)) as Hlog.
  change (Z.log2 max_array_length) with 31%Z in Hlog.
  destruct (Z.leb_spec (Z.log2 z + 1 - 53) 0) as [_|?]; [|lia].
  destruct (Z.leb_spec 1024 (Z.log2 z)) as [?|_]; [lia|done].
Qed.

(** X16. [toIterable] is idempotent: what it returns is returned
    unchanged when converted again, with or without [Symbol]. *)
Theorem toIterable_idempotent captured_stack has_Symbol v r :
  toIterable captured_stack has_Symbol v = Returns r →
  toIterable captured_stack has_Symbol r = Returns r.
Proof.
  intros Hv.
  assert (Harr : ∀ elems,
            (Z.of_nat (length elems) ≤ max_array_length)%Z →
            toIterable captured_stack has_Symbol (JArray elems) = Returns (JArray elems)).
  { intros elems Hmax. unfold toIterable. destruct has_Symbol; [done|].
    cbn -[is_finite copy_indices].
    rewrite array_length_finite by lia.
    rewrite Nat2Z.id.
    rewrite copy_indices_spec; [|intros j; by apply get_index_object_like|done].
    simpl. by rewrite map_lookup_seq. }
  unfold toIterable in Hv.
  destruct (if has_Symbol then get_iterator v else Returns false) as [[|]| |] eqn:Hit;
    simpl in Hv; try discriminate.
  - injection Hv as <-. unfold toIterable. by rewrite Hit.
  - destruct (negb match v with JNull => true | _ => false end
              && String.eqb (typeof v) "object"); [|discriminate].
    destruct (get_member v "length") as [[| | |n| | | | |]| |]; simpl in Hv;
      try discriminate.
    destruct (is_finite n); [|discriminate].
    destruct (copy_indices v 0 (indices_below n) []) as [array| |] eqn:Hcopy;
      simpl in Hv; try discriminate.
    injection Hv as <-. apply Harr.
    apply (copy_indices_length _ _ _ _ _ Hcopy). by vm_compute.
Qed.

Lemma toIterable_idempotent_witness :
  let r := JArray [JStr "a"; JUndefined] in
  toIterable "" false r = Returns r.
Proof.
  intros r.
  apply (toIterable_idempotent "" false
           (JObject false [("length"%string, JNum (Fin 2)); ("0"%string, JStr "a")]) r).
  reflexivity.
Defined.

(** ** More on promiseTimeout *)

Lemma promiseTimeout_positive_delay_witness :
  let p := promiseTimeout (Fin 250) (JBool true) in
  let job := JObject false [("then"%string, JFunction 2 "(ok, ko) => ko(1)")] in
  (∃ p', call_property "resolve" job p = Returns p'
         ∧ state p' = Pending ∧ follows p' = Some job ∧ timer p' = None)
  ∧ (∃ p', call_property "reject" job p = Returns p' ∧ state p' = Rejected job)
  ∧ state (timer_fires p) = Fulfilled (JBool true).
Proof.
  intros p job.
  destruct (promiseTimeout_positive_delay (Fin 250) (JBool true) job eq_refl)
    as (_ & _ & _ & (p1 & H1 & [Hs Hf] & Ht & _) & (p2 & H2 & Hr & _) & [Hv _]).
  split; [|split].
  - exists p1. by repeat split.
  - exists p2. by split.
  - exact Hv.
Defined.

Lemma step_settled p act :
  timer p = None → promiseResolve p = false → promiseReject p = false →
  step p act = p.
Proof.
  intros Ht Hr Hj. destruct p as [s t pr pj rv ps f]; simpl in *; subst.
  by destruct act.
Qed.

Lemma steps_settled p acts :
  timer p = None → promiseResolve p = false → promiseReject p = false →
  foldl step p acts = p.
Proof.
  intros Ht Hr Hj. induction acts as [|act acts IH]; [done|].
  simpl. by rewrite step_settled.
Qed.

(** X18. A promise of [promiseTimeout] is resolved once. With a positive
    delay the first thing that happens (an early [resolve], an early
    [reject] or the timer) decides the outcome, clears the timer and drops
    both resolvers: the promise is rejected with the value of [reject],
    fulfilled with the value of [resolve] or of the timer, or, when that
    value is a thenable, left pending to follow it. Whatever the holder or
    the timer do afterwards changes nothing. *)
Theorem promiseTimeout_settles_once delay resolveValue first later :
  le_zero delay = false →
  let p := step (promiseTimeout delay resolveValue) first in
  match first with
  | CallResolve v => resolved_with v p
  | CallReject v => state p = Rejected v ∧ follows p = None
  | TimerFires => resolved_with resolveValue p
  end
  ∧ timer p = None ∧ promiseResolve p = false ∧ promiseReject p = false
  ∧ foldl step p later = p.
Proof.
  intros Hd p. unfold p, promiseTimeout. rewrite Hd.
  destruct first as [v|v|]; unfold resolved_with; simpl.
  - split; [by destruct (thenable v)|]. repeat (split; [done|]). by apply steps_settled.
  - repeat (split; [done|]). by apply steps_settled.
  - split; [by destruct (thenable resolveValue)|].
    repeat (split; [done|]). by apply steps_settled.
Qed.

Lemma promiseTimeout_settles_once_witness :
  let job := JObject false [("then"%string, JFunction 2 "(ok, ko) => ko(1)")] in
  let p := step (promiseTimeout (Fin 250) (JBool true)) (CallResolve job) in
  state p = Pending ∧ follows p = Some job
  ∧ timer p = None
  ∧ foldl step p [TimerFires; CallReject JNull; CallResolve JNull] = p.
Proof.
  intros job p.
  destruct (promiseTimeout_settles_once (Fin 250) (JBool true) (CallResolve job)
              [TimerFires; CallReject JNull; CallResolve JNull] eq_refl)
    as ([Hs Hf] & Ht & _ & _ & Hl).
  split; [exact Hs|]. split; [exact Hf|]. split; [exact Ht|exact Hl].
Defined.

(** ** More on stringReplaceAsync *)

Lemma exec_from_Some R str i todo j e captures :
  exec_from R str i todo = Some (j, e, captures) →
  i ≤ j < i + todo ∧ matcher R str j = Some (e, captures).
Proof.
  revert i. induction todo as [|todo IH]; intros i; simpl; [done|].
  destruct (matcher R str i) as [[e' captures']|] eqn:Hm.
  - intros [= <- <- <-]. split; [lia|done].
  - destruct (sticky R); [done|]. intros H.
    destruct (IH _ H) as [Hj Hmj]. split; [lia|done].
Qed.





Lemma append_cons c s t : (String c s +:+ t)%string = String c (s +:+ t)%string.
Proof. reflexivity. Qed.

Lemma append_empty t : ("" +:+ t)%string = t.
Proof. reflexivity. Qed.

Lemma append_nil_r s : (s +:+ "")%string = s.
Proof. induction s as [|c s IH]; [done|]. by rewrite append_cons, IH. Qed.

Lemma append_assoc s1 s2 s3 : (s1 +:+ (s2 +:+ s3))%string = ((s1 +:+ s2) +:+ s3)%string.
Proof. induction s1 as [|c s1 IH]; [done|]. by rewrite !append_cons, IH. Qed.

Lemma substring_0_0 s : String.substring 0 0 s = ""%string.
Proof. by destruct s. Qed.

Lemma substring_whole s : String.substring 0 (String.length s) s = s.
Proof. induction s as [|c s IH]; [done|]. simpl. by rewrite IH. Qed.

(** A prefix followed by the piece after it is the longer prefix. *)
Lemma substring_prefix_app s a n :
  (String.substring 0 a s +:+ String.substring a n s)%string
  = String.substring 0 (a + n) s.
Proof.
  revert s. induction a as [|a IH]; intros s.
  - by rewrite substring_0_0, append_empty.
  - destruct s as [|c s].
    + by destruct n.
    + change (String.substring 0 (S a) (String c s))
        with (String c (String.substring 0 a s)).
      change (String.substring (S a) n (String c s)) with (String.substring a n s).
      change (String.substring 0 (S a + n) (String c s))
        with (String c (String.substring 0 (a + n) s)).
      by rewrite append_cons, IH.
Qed.

Lemma js_substring_prefix_app s a b :
  a ≤ b → b ≤ String.length s →
  (String.substring 0 a s +:+ substring s a b)%string = String.substring 0 b s.
Proof.
  intros Hab Hb. unfold substring.
  rewrite !Nat.min_l by lia. rewrite Nat.max_r by lia.
  rewrite substring_prefix_app. f_equal. lia.
Qed.

Lemma join_with_cons s l : join_with "" (s :: l) = (s +:+ join_with "" l)%string.
Proof. destruct l; [symmetry; apply append_nil_r|done]. Qed.

Lemma join_with_app l1 l2 :
  join_with "" (l1 ++ l2) = (join_with "" l1 +:+ join_with "" l2)%string.
Proof.
  induction l1 as [|s l1 IH]; [done|].
  change ((s :: l1) ++ l2) with (s :: (l1 ++ l2)).
  by rewrite !join_with_cons, IH, append_assoc.
Qed.

Lemma promise_all_fulfilled strs :
  promise_all (map (λ s, Fulfilled (JStr s)) strs) = Fulfilled (JArray (map JStr strs)).
Proof. induction strs as [|s strs IH]; [done|]. simpl. by rewrite IH. Qed.

Lemma array_join_strings strs : array_join "" (map JStr strs) = join_with "" strs.
Proof.
  unfold array_join. f_equal.
  induction strs as [|s strs IH]; [done|]. simpl. by rewrite IH.
Qed.

(** The loop with a replacer that gives back the matched text: the parts
    collected so far always spell the string up to [index]. *)
Lemma replace_loop_same_text str fuel :
  ∀ regex index strs calls,
    global regex = true → sticky regex = false →
    advancing regex str →
    index ≤ lastIndex regex →
    index ≤ String.length str →
    join_with "" strs = String.substring 0 index str →
    S (String.length str) - lastIndex regex < fuel →
    ∃ regex' index' strs' calls',
      replace_loop same_text fuel str regex index
        (map (λ s, Fulfilled (JStr s)) strs) calls
      = Returns (regex', index', map (λ s, Fulfilled (JStr s)) strs', calls')
      ∧ index' ≤ String.length str
      ∧ join_with "" strs' = String.substring 0 index' str.
Proof.
  induction fuel as [|fuel IH];
    intros regex index strs calls Hg Hs Hadv Hidx Hlen Hjoin Hfuel; [lia|].
  simpl. unfold exec. rewrite Hg, Hs. simpl.
  destruct (exec_from regex str (lastIndex regex)
              (S (String.length str) - lastIndex regex)) as [[[i e] captures]|] eqn:Hex.
  - apply exec_from_Some in Hex as [Hi Hm].
    destruct (Hadv _ _ _ Hm) as [Hie He]. simpl.
    replace (map (λ s, Fulfilled (JStr s)) strs
               ++ [Fulfilled (JStr (substring str index i));
                   same_text (JStr (substring str i e) :: captures
                                ++ [JNum (Fin (Z.of_nat i)); JStr str])])
      with (map (λ s, Fulfilled (JStr s))
              (strs ++ [substring str index i; substring str i e]))
      by (by rewrite map_app).
    apply IH; simpl; try done; try lia.
    rewrite join_with_app, Hjoin, !join_with_cons.
    change (join_with "" []) with ""%string.
    rewrite append_nil_r, append_assoc.
    rewrite js_substring_prefix_app by lia.
    by rewrite js_substring_prefix_app by lia.
  - simpl. eauto 10.
Qed.

(** X20. With the [g] flag, matches that are not empty, and a replacer that
    gives back the matched text, [stringReplaceAsync] returns a promise
    resolved with [str] itself: the pieces between the matches and the
    replacements are put together in order, nothing lost and nothing
    repeated. *)
Theorem stringReplaceAsync_same_text fuel str regex :
  global regex = true →
  sticky regex = false →
  advancing regex str →
  S (String.length str) < fuel →
  ∃ r, stringReplaceAsync same_text fuel str regex = Returns r
       ∧ promise r = Fulfilled (JStr str).
Proof.
  intros Hg Hs Hadv Hfuel. unfold stringReplaceAsync.
  destruct (replace_loop_same_text str fuel regex 0 [] [] Hg Hs Hadv)
    as (regex' & index' & strs' & calls' & Hloop & Hidx & Hjoin);
    [lia|lia|by rewrite substring_0_0|lia|].
  simpl in Hloop. rewrite Hloop. simpl.
  destruct (length (map (λ s, Fulfilled (JStr s)) strs') =? 0); [eauto|].
  eexists. split; [done|]. simpl.
  replace (map (λ s, Fulfilled (JStr s)) strs'
             ++ [Fulfilled (JStr (substring str index' (String.length str)))])
    with (map (λ s, Fulfilled (JStr s))
            (strs' ++ [substring str index' (String.length str)]))
    by (by rewrite map_app).
  rewrite promise_all_fulfilled, array_join_strings, join_with_app, Hjoin.
  change (join_with "" [substring str index' (String.length str)])
    with (substring str index' (String.length str)).
  rewrite js_substring_prefix_app by lia.
  by rewrite substring_whole.
Qed.

Lemma stringReplaceAsync_same_text_witness :
  let regex := {| matcher := literal "ab"; global := true; sticky := false;
                  lastIndex := 0 |} in
  ∃ r, stringReplaceAsync same_text 9 "cabdabe" regex = Returns r
       ∧ promise r = Fulfilled (JStr "cabdabe").
Proof.
  intros regex.
  apply (stringReplaceAsync_same_text 9 "cabdabe" regex).
  - reflexivity.
  - reflexivity.
  - intros i e captures. unfold regex, literal; simpl.
    destruct i as [|[|[|[|[|[|[|[|i]]]]]]]]; intros H; cbn in H;
      first [discriminate H | injection H as <- _; lia].
  - simpl. lia.
Defined.
